(** * guac: the websocket bridge (ws_server.go) and the package logger (logger.go)

    A shallow embedding of the two bridge pumps [wsToGuacd] and [guacdToWs],
    of the connection handler [WebsocketServer.ServeHTTP] and of the package
    logger, followed by the properties of the bridge stated in the design
    document.

    The pumps talk to three Go interfaces ([MessageReader], [MessageWriter],
    [InstructionReader]) and to an [io.Writer].  Each of them is modelled by an
    in-memory fake: the list of the results its successive calls return.  Any
    run of a pump against any implementation answers its calls with some such
    sequence, so quantifying over the lists covers every implementation.  A
    pump that asks a reader for more than the list holds is waiting in that
    read: the run ends with status [Blocked]. *)

From Stdlib Require Import ZArith Lia Strings.Byte Strings.String.
From stdpp Require Import base numbers list strings gmap.

Local Open Scope Z_scope.

(** ** Bytes *)

(** Go's byte slices. *)
Abbreviation bytes := (list byte).

#[global] Instance byte_eq_dec : EqDecision byte := Byte.byte_eq_dec.

(** [len(b)] and [bytes.Buffer.Len], as a Go [int]. *)
Definition Len (b : bytes) : Z := Z.of_nat (length b).

(** [bytes.Equal]. *)
Fixpoint Equal (a b : bytes) : bool :=
  match a, b with
  | [], [] => true
  | x :: a', y :: b' => Byte.eqb x y && Equal a' b'
  | _, _ => false
  end.

(** [bytes.HasPrefix(s, prefix)]:
    [len(s) >= len(prefix) && Equal(s[:len(prefix)], prefix)]. *)
Definition HasPrefix (s prefix : bytes) : bool :=
  (Len prefix <=? Len s) && Equal (take (length prefix) s) prefix.

(** ** Errors *)

(** Go [error] values.  [websocket.ErrCloseSent] is the one error the code
    compares against; every other error is told apart by its text only. *)
Inductive error :=
| ErrCloseSent
| ErrOther (text : string).

(** [err == websocket.ErrCloseSent]. *)
Definition is_ErrCloseSent (e : error) : bool :=
  match e with ErrCloseSent => true | ErrOther _ => false end.

(** ** zerolog, as far as the package uses it *)

Inductive Level :=
| TraceLevel | DebugLevel | InfoLevel | WarnLevel | ErrorLevel
| FatalLevel | PanicLevel | NoLevel | Disabled.

(** The numeric value of a level ([TraceLevel] is -1, [Disabled] is 7). *)
Definition level_num (l : Level) : Z :=
  match l with
  | TraceLevel => -1 | DebugLevel => 0 | InfoLevel => 1 | WarnLevel => 2
  | ErrorLevel => 3 | FatalLevel => 4 | PanicLevel => 5 | NoLevel => 6
  | Disabled => 7
  end.

(** The writers a logger of this package is built on. *)
Inductive Sink :=
| Discard            (* io.Discard *)
| Stderr             (* os.Stderr *)
| ConsoleStderr      (* zerolog.ConsoleWriter{Out: os.Stderr} *)
| Custom (n : nat).  (* a writer of the consuming application *)

Record Logger := mkLogger {
  w : Sink;
  level : Level;
  timestamp : bool;
  context : list (string * string)
}.

(** [zerolog.New(w)]: level Trace, no context. *)
Definition New (s : Sink) : Logger := mkLogger s TraceLevel false [].

(** [l.Level(lvl)]: a copy of [l] with the level changed. *)
Definition WithLevel (l : Logger) (lvl : Level) : Logger :=
  mkLogger (w l) lvl (timestamp l) (context l).

(** [l.With().Timestamp().Logger()]. *)
Definition WithTimestamp (l : Logger) : Logger :=
  mkLogger (w l) (level l) true (context l).

Definition GetLevel (l : Logger) : Level := level l.

(** [Context.Str(key, val)] appends one field to the context. *)
Definition Str (key val : string) (c : list (string * string)) :
  list (string * string) := c ++ [(key, val)].

(** [l.should(lvl)]: an event of level [lvl] is written only when it is
    below neither the logger's level nor zerolog's global level [gl]. *)
Definition should (gl : Level) (l : Logger) (lvl : Level) : bool :=
  (level_num (level l) <=? level_num lvl) && (level_num gl <=? level_num lvl).

(** Where an event of level [lvl] logged through [l] ends up: the sink that
    receives it, or [None] when nothing leaves the process (the event is not
    enabled, is at the [Disabled] level, or the sink discards). *)
Definition log_output (gl : Level) (l : Logger) (lvl : Level) : option Sink :=
  match lvl with
  | Disabled => None
  | _ => if should gl l lvl
         then match w l with Discard => None | s => Some s end
         else None
  end.

(** ** logger.go *)

(** [createDefaultLogger]: [zerolog.New(io.Discard).Level(zerolog.Disabled)]. *)
Definition createDefaultLogger : Logger := WithLevel (New Discard) Disabled.

(** Pointers to loggers: the address of the package variable [globalLogger],
    or the address of a logger owned by the consuming application. *)
Inductive LoggerPtr :=
| AddrGlobalLogger
| AddrLogger (n : nat).

(** The loggers in memory: the package variable and the application's. *)
Record Memory := mkMemory {
  globalLogger : Logger;
  heap : gmap nat Logger
}.

(** The memory when the package is initialised:
    [globalLogger = createDefaultLogger()]. *)
Definition init_memory (h : gmap nat Logger) : Memory :=
  mkMemory createDefaultLogger h.

Definition deref (m : Memory) (p : LoggerPtr) : option Logger :=
  match p with
  | AddrGlobalLogger => Some (globalLogger m)
  | AddrLogger n => heap m !! n
  end.

Definition store (m : Memory) (p : LoggerPtr) (l : Logger) : Memory :=
  match p with
  | AddrGlobalLogger => mkMemory l (heap m)
  | AddrLogger n => mkMemory (globalLogger m) (<[n := l]> (heap m))
  end.

Definition SetLogger (l : Logger) (m : Memory) : Memory :=
  mkMemory l (heap m).

Definition SetLogLevel (lvl : Level) (m : Memory) : Memory :=
  mkMemory (WithLevel (WithTimestamp (New Stderr)) lvl) (heap m).

Definition SetLogLevelConsole (lvl : Level) (m : Memory) : Memory :=
  mkMemory (WithLevel (WithTimestamp (New ConsoleStderr)) lvl) (heap m).

Definition GetLogger (m : Memory) : Logger := globalLogger m.

(** [Logger.UpdateContext(update)], called on a pointer, replaces the context of the logger
    behind the pointer by [update] of it: the logger is changed in place. *)
Definition UpdateContext (p : LoggerPtr)
    (update : list (string * string) -> list (string * string))
    (m : Memory) : Memory :=
  match deref m p with
  | Some l => store m p (mkLogger (w l) (level l) (timestamp l) (update (context l)))
  | None => m
  end.

(** ** The fakes and the trace of a run *)

(** What one call of [ReadMessage()] on the websocket returns. *)
Inductive read_message :=
| Msg (messageType : Z) (data : bytes)
| ReadMessageErr (err : error).

(** What one call of [ReadSome()] on the tunnel reader returns, together
    with the answer [Available()] gives when it is asked after that read. *)
Inductive read_some :=
| Ins (ins : bytes) (available : bool)
| ReadSomeErr (err : error).

(** A fake writer is the list of the errors its successive calls return
    ([None] is Go's [nil]); past the end of the list every call succeeds. *)
Definition next_result (rs : list (option error)) :
  option error * list (option error) :=
  match rs with
  | [] => (None, [])
  | r :: rs' => (r, rs')
  end.

(** A callback installed by the application, known by a label. *)
Definition hook := nat.

(** The calls a run makes on its environment, in the order it makes them. *)
Inductive event :=
| EvReadMessage (r : read_message)
| EvWrite (data : bytes) (err : option error)
| EvReadSome (ins : bytes)
| EvReadSomeErr (err : error)
| EvAvailable (b : bool)
| EvWriteMessage (messageType : Z) (data : bytes) (err : option error)
| EvLog (lvl : Level) (err : option error) (fields : list (string * string))
        (msg : string)
| EvUpgrade (ReadBufferSize WriteBufferSize : Z)
            (responseHeader : gmap string (list string)) (err : option error)
| EvConnect (err : option error)
| EvConnectWs (err : option error)
| EvConnectionID (id : string)
| EvUpdateContext (p : LoggerPtr) (key val : string)
| EvOnConnect (f : hook) (id : string)
| EvOnConnectWs (f : hook) (id : string)
| EvOnDisconnect (f : hook) (id : string)
| EvOnDisconnectWs (f : hook) (id : string)
| EvAcquireWriter
| EvAcquireReader
| EvReleaseWriter
| EvReleaseReader
| EvGo_wsToGuacd
| EvTunnelClose (err : option error)
| EvWsClose (err : option error).

(** How a run ends: the function returned, it is waiting in a read the fake
    has no answer for, or it panicked. *)
Inductive Status := Returned | Blocked | Panicked.

(** A run of a pump: its trace, the bytes left in the accumulation buffer
    (always empty for the inbound pump, which has none) and how it ended. *)
Record run := mkRun {
  trace : list event;
  pending : bytes;
  status : Status
}.

Definition prepend (evs : list event) (r : run) : run :=
  mkRun (evs ++ trace r) (pending r) (status r).

(** What one turn of a pump's [for] loop decides: go round again with the
    writer and the buffer as they now are, or return. *)
Inductive step :=
| Continue (writer : list (option error)) (buf : bytes)
| Return (buf : bytes).

Definition and_then (p : list event * step)
    (k : list (option error) -> bytes -> run) : run :=
  match p with
  | (evs, Continue writer buf) => prepend evs (k writer buf)
  | (evs, Return buf) => mkRun evs buf Returned
  end.

(** The payloads handed to [WriteMessage], in order. *)
Definition sent (t : list event) : list bytes :=
  omap (fun e => match e with EvWriteMessage _ d _ => Some d | _ => None end) t.

(** The payloads [WriteMessage] accepted, in order. *)
Definition delivered (t : list event) : list bytes :=
  omap (fun e => match e with EvWriteMessage _ d None => Some d | _ => None end) t.

(** The payloads handed to the tunnel writer's [Write], in order. *)
Definition written (t : list event) : list bytes :=
  omap (fun e => match e with EvWrite d _ => Some d | _ => None end) t.

(** The messages and instructions the readers returned, in order. *)
Definition messages_read (t : list event) : list bytes :=
  omap (fun e => match e with EvReadMessage (Msg _ d) => Some d | _ => None end) t.

Definition instructions_read (t : list event) : list bytes :=
  omap (fun e => match e with EvReadSome d => Some d | _ => None end) t.

(** An I/O call that returned an error. *)
Definition failed (e : event) : bool :=
  match e with
  | EvReadMessage (ReadMessageErr _) => true
  | EvWrite _ (Some _) => true
  | EvReadSomeErr _ => true
  | EvWriteMessage _ _ (Some _) => true
  | _ => false
  end.

(** A call on the logger. *)
Definition is_log (e : event) : bool :=
  match e with EvLog _ _ _ _ => true | _ => false end.

(** ** ws_server.go: the pumps *)

Section Bridge.

(** The two constants of the package that the pumps use; they are declared
    in another file of the package. *)
Variable MaxGuacMessage : Z.
Variable internalOpcodeIns : bytes.

Definition websocketReadBufferSize : Z := MaxGuacMessage.
Definition websocketWriteBufferSize : Z := MaxGuacMessage * 2.

(** One turn of the loop of [wsToGuacd], on the result [r] of
    [ws.ReadMessage()]. *)
Definition wsToGuacd_body (r : read_message) (guacd : list (option error))
    (buf : bytes) : list event * step :=
  match r with
  | ReadMessageErr err =>
      ([EvReadMessage r;
        EvLog TraceLevel (Some err) [] "Error reading message from ws";
        EvLog WarnLevel (Some err) []
          "[Browser -> guacd] Browser disconnected or error reading from WebSocket"],
       Return buf)
  | Msg _ data =>
      if HasPrefix data internalOpcodeIns then
        ([EvReadMessage r], Continue guacd buf)
      else
        let '(err, guacd') := next_result guacd in
        match err with
        | Some e =>
            ([EvReadMessage r; EvWrite data err;
              EvLog TraceLevel (Some e) [] "Failed writing to guacd";
              EvLog ErrorLevel (Some e) []
                "[Browser -> guacd] Failed to write to guacd (guacd may have disconnected)"],
             Return buf)
        | None => ([EvReadMessage r; EvWrite data err], Continue guacd' buf)
        end
  end.

Fixpoint wsToGuacd_loop (ws : list read_message) (guacd : list (option error))
    (buf : bytes) : run :=
  match ws with
  | [] => mkRun [] buf Blocked
  | r :: ws' => and_then (wsToGuacd_body r guacd buf) (wsToGuacd_loop ws')
  end.

Definition wsToGuacd (ws : list read_message) (guacd : list (option error)) : run :=
  wsToGuacd_loop ws guacd [].

(** The flush of [guacdToWs]: [ws.WriteMessage(1, buf.Bytes())], then
    [buf.Reset()] unless the write failed. *)
Definition flush (ws : list (option error)) (buf : bytes) : list event * step :=
  let '(err, ws') := next_result ws in
  match err with
  | Some e =>
      if is_ErrCloseSent e then
        ([EvWriteMessage 1 buf err;
          EvLog DebugLevel None []
            "[guacd -> Browser] websocket already closed (clean close)"],
         Return buf)
      else
        ([EvWriteMessage 1 buf err;
          EvLog WarnLevel (Some e) []
            "[guacd -> Browser] Failed to write to WebSocket (browser may have disconnected)"],
         Return buf)
  | None => ([EvWriteMessage 1 buf err], Continue ws' [])
  end.

(** One turn of the loop of [guacdToWs], on the result [r] of
    [guacd.ReadSome()].  [buf.Write] never returns an error, so the branch
    that logs a failure to buffer is never taken. *)
Definition guacdToWs_body (r : read_some) (ws : list (option error))
    (buf : bytes) : list event * step :=
  match r with
  | ReadSomeErr err =>
      ([EvReadSomeErr err;
        EvLog WarnLevel (Some err) []
          "[guacd -> Browser] guacd disconnected or error reading from guacd"],
       Return buf)
  | Ins ins available =>
      if HasPrefix ins internalOpcodeIns then
        ([EvReadSome ins], Continue ws buf)
      else
        let buf := buf ++ ins in
        if negb available || (MaxGuacMessage <=? Len buf) then
          let '(evs, s) := flush ws buf in
          (EvReadSome ins :: EvAvailable available :: evs, s)
        else
          ([EvReadSome ins; EvAvailable available], Continue ws buf)
  end.

Fixpoint guacdToWs_loop (guacd : list read_some) (ws : list (option error))
    (buf : bytes) : run :=
  match guacd with
  | [] => mkRun [] buf Blocked
  | r :: guacd' => and_then (guacdToWs_body r ws buf) (guacdToWs_loop guacd')
  end.

(** [guacdToWs] starts with an empty buffer. *)
Definition guacdToWs (guacd : list read_some) (ws : list (option error)) : run :=
  guacdToWs_loop guacd ws [].

(** ** ws_server.go: the server *)

(** [http.Request], as far as the handler reads it. *)
Record Request := mkRequest {
  Header : gmap string (list string);
  RemoteAddr : string
}.

(** [Header.Get(key)] for a key in canonical form: the first value stored
    under the key, or the empty string. *)
Definition Get (h : gmap string (list string)) (key : string) : string :=
  match h !! key with
  | Some (v :: _) => v
  | _ => ""
  end.

(** A fake websocket connection: the results of its reads, of its writes
    and of [Close]. *)
Record Conn := mkConn {
  ws_reads : list read_message;
  ws_writes : list (option error);
  ws_close : option error
}.

(** A fake [Tunnel]: its identifier, the results its reader and writer
    handles give, and the result of [Close]. *)
Record Tunnel := mkTunnel {
  ConnectionID : string;
  tunnel_reads : list read_some;
  tunnel_writes : list (option error);
  tunnel_close : option error
}.

Record WebsocketServer := mkServer {
  connect : option (Request -> Tunnel + error);
  connectWs : option (Conn -> Request -> Tunnel + error);
  OnConnect : option hook;
  OnDisconnect : option hook;
  OnConnectWs : option hook;
  OnDisconnectWs : option hook;
  logger : LoggerPtr
}.

(** [NewWebsocketServer(connect, logger)]: a nil [logger] stands for the
    address of the package's [globalLogger]; [connect] is stored as it is
    given, nil ([None]) included. *)
Definition NewWebsocketServer (connect : option (Request -> Tunnel + error))
    (logger : option LoggerPtr) : WebsocketServer :=
  let serverLogger :=
    match logger with
    | Some l => l
    | None => AddrGlobalLogger
    end in
  mkServer connect None None None None None serverLogger.


(** A call registered with [defer], its arguments already evaluated. *)
Inductive deferred :=
| DeferWsClose (ws : Conn)
| DeferTunnelClose (tunnel : Tunnel)
| DeferOnDisconnect (f : hook) (id : string)
| DeferOnDisconnectWs (f : hook) (id : string)
| DeferLogClosed (id : string)
| DeferReleaseWriter
| DeferReleaseReader.

Definition run_deferred (d : deferred) : list event :=
  match d with
  | DeferWsClose ws =>
      EvWsClose (ws_close ws) ::
      match ws_close ws with
      | Some e => [EvLog TraceLevel (Some e) [] "Error closing websocket"]
      | None => []
      end
  | DeferTunnelClose tunnel =>
      EvTunnelClose (tunnel_close tunnel) ::
      match tunnel_close tunnel with
      | Some e => [EvLog TraceLevel (Some e) [] "Error closing tunnel"]
      | None => []
      end
  | DeferOnDisconnect f id => [EvOnDisconnect f id]
  | DeferOnDisconnectWs f id => [EvOnDisconnectWs f id]
  | DeferLogClosed id =>
      [EvLog TraceLevel None [("connection_id", id)] "websocket connection closed"]
  | DeferReleaseWriter => [EvReleaseWriter]
  | DeferReleaseReader => [EvReleaseReader]
  end.

(** The deferred calls run when the function returns or panics, last
    registered first; the list is the stack, its head the last [defer]. *)
Definition run_defers (ds : list deferred) : list event :=
  flat_map run_deferred ds.

Definition defer_if_set (h : option hook) (d : hook -> deferred)
    (ds : list deferred) : list deferred :=
  match h with
  | Some f => d f :: ds
  | None => ds
  end.

Definition call_if_set (h : option hook) (e : hook -> event) : list event :=
  match h with
  | Some f => [e f]
  | None => []
  end.

(** What a call of the handler leaves behind: the trace of the accepting
    task, how it ended, the loggers in memory, and the run of the pump it
    started with [go] (when it got that far).  The started pump runs
    concurrently: its trace is its own, and no order between its events and
    those of the accepting task is recorded. *)
Record served := mkServed {
  served_trace : list event;
  served_status : Status;
  served_memory : Memory;
  served_go : option run
}.

(** [ServeHTTP(w, r)].  [upgrade] is what [upgrader.Upgrade] returns for
    this request. *)
Definition ServeHTTP (s : WebsocketServer) (upgrade : Conn + error)
    (r : Request) (m : Memory) : served :=
  let protocol := Get (Header r) "Sec-Websocket-Protocol" in
  let responseHeader : gmap string (list string) :=
    {[ "Sec-Websocket-Protocol" := [protocol] ]} in
  let call_upgrade :=
    EvUpgrade websocketReadBufferSize websocketWriteBufferSize responseHeader in
  match upgrade with
  | inr err =>
      mkServed
        [call_upgrade (Some err);
         EvLog ErrorLevel (Some err) [] "failed to upgrade websocket"]
        Returned m None
  | inl ws =>
      let defers := [DeferWsClose ws] in
      let t1 := [call_upgrade None;
                 EvLog TraceLevel None [] "connecting to tunnel"] in
      let connected :=
        match connect s with
        | Some c => Some (c r, EvConnect)
        | None =>
            match connectWs s with
            | Some c => Some (c ws r, EvConnectWs)
            | None => None
            end
        end in
      match connected with
      | None => mkServed (t1 ++ run_defers defers) Panicked m None
      | Some (inr e, call) =>
          mkServed (t1 ++ [call (Some e)] ++ run_defers defers) Returned m None
      | Some (inl tunnel, call) =>
          let defers := DeferTunnelClose tunnel :: defers in
          let id := ConnectionID tunnel in
          let m := UpdateContext (logger s) (Str "connection_id" id) m in
          let t2 :=
            [call None;
             EvLog TraceLevel None [] "connected to tunnel";
             EvConnectionID id;
             EvUpdateContext (logger s) "connection_id" id;
             EvLog TraceLevel None
               [("connection_id", id); ("remote_addr", RemoteAddr r)]
               "websocket connection established"]
            ++ call_if_set (OnConnect s) (fun f => EvOnConnect f id)
            ++ call_if_set (OnConnectWs s) (fun f => EvOnConnectWs f id)
            ++ [EvAcquireWriter; EvAcquireReader] in
          let defers := defer_if_set (OnDisconnect s)
                          (fun f => DeferOnDisconnect f id) defers in
          let defers := defer_if_set (OnDisconnectWs s)
                          (fun f => DeferOnDisconnectWs f id) defers in
          let defers := DeferLogClosed id :: defers in
          let defers := DeferReleaseWriter :: defers in
          let defers := DeferReleaseReader :: defers in
          let inbound := wsToGuacd (ws_reads ws) (tunnel_writes tunnel) in
          let outbound := guacdToWs (tunnel_reads tunnel) (ws_writes ws) in
          let t3 := t1 ++ t2 ++ [EvGo_wsToGuacd] ++ trace outbound in
          match status outbound with
          | Returned =>
              mkServed (t3 ++ run_defers defers) Returned m (Some inbound)
          | st => mkServed t3 st m (Some inbound)
          end
      end
  end.

(** ** The vocabulary of the properties *)

(** The script of a burst: the instructions of [l] are all buffered in the
    stream, so [Available()] answers true after each of them but the last. *)
Fixpoint burst (l : list bytes) : list read_some :=
  match l with
  | [] => []
  | [ins] => [Ins ins false]
  | ins :: l' => Ins ins true :: burst l'
  end.

(** No instruction of the script is longer than [n] bytes. *)
Definition instructions_within (n : Z) (guacd : list read_some) : Prop :=
  Forall (fun r => match r with
                   | Ins ins _ => Len ins <= n
                   | ReadSomeErr _ => True
                   end) guacd.

(** A call of [WriteMessage] sends a text message (message type 1). *)
Definition text_if_written (e : event) : Prop :=
  match e with
  | EvWriteMessage messageType _ _ => messageType = 1
  | _ => True
  end.

(** The read events of a trace with the message type blanked out. *)
Definition forget_type (e : event) : event :=
  match e with
  | EvReadMessage (Msg _ data) => EvReadMessage (Msg 0 data)
  | _ => e
  end.

(** The same messages, arriving with other message types. *)
Definition retype (f : Z -> Z) (r : read_message) : read_message :=
  match r with
  | Msg messageType data => Msg (f messageType) data
  | ReadMessageErr err => ReadMessageErr err
  end.

(** A payload that does not begin with the reserved opcode. *)
Definition forwardable (d : bytes) : bool :=
  negb (HasPrefix d internalOpcodeIns).

(** What may follow a failed call [e] in a trace: log calls only, and
    after a failed [WriteMessage] the one log call the code makes for it,
    at Debug level for [websocket.ErrCloseSent] and at Warn level, with
    the error attached, for any other error. *)
Definition epilogue (e : event) (post : list event) : Prop :=
  Forall (fun e' => is_log e' = true) post /\
  match e with
  | EvWriteMessage _ _ (Some err) =>
      post =
        [if is_ErrCloseSent err then
           EvLog DebugLevel None []
             "[guacd -> Browser] websocket already closed (clean close)"
         else
           EvLog WarnLevel (Some err) []
             "[guacd -> Browser] Failed to write to WebSocket (browser may have disconnected)"]
  | _ => True
  end.

(** The first failed call of the trace ends the run. *)
Fixpoint stops_at_failure (st : Status) (t : list event) : Prop :=
  match t with
  | [] => True
  | e :: t' =>
      if failed e then st = Returned /\ epilogue e t'
      else stops_at_failure st t'
  end.

(** The connect step of [ServeHTTP]: [s.connect] when it is set,
    [s.connectWs] otherwise; [None] when neither is set. *)
Definition connect_step (s : WebsocketServer) (ws : Conn) (r : Request) :
  option (Tunnel + error) :=
  match connect s with
  | Some c => Some (c r)
  | None =>
      match connectWs s with
      | Some c => Some (c ws r)
      | None => None
      end
  end.

(** The invocation of a connect or disconnect callback. *)
Definition is_callback (e : event) : bool :=
  match e with
  | EvOnConnect _ _ | EvOnConnectWs _ _
  | EvOnDisconnect _ _ | EvOnDisconnectWs _ _ => true
  | _ => false
  end.

(** The release of a handle, or the closing of the tunnel. *)
Definition is_teardown (e : event) : bool :=
  match e with
  | EvReleaseReader | EvReleaseWriter | EvTunnelClose _ => true
  | _ => false
  end.

(** The callbacks a trace invokes, and the releases and the closing of
    the tunnel it performs, in order. *)
Definition callbacks (t : list event) : list event := List.filter is_callback t.
Definition teardown (t : list event) : list event := List.filter is_teardown t.

(** The calls a pump makes: reads, writes and log calls. *)
Definition is_pump_event (e : event) : bool :=
  match e with
  | EvReadMessage _ | EvWrite _ _ | EvReadSome _ | EvReadSomeErr _
  | EvAvailable _ | EvWriteMessage _ _ _ | EvLog _ _ _ _ => true
  | _ => false
  end.

(** A connection, as the handler receives it. *)
Record connection := mkConnection {
  conn_server : WebsocketServer;
  conn_upgrade : Conn + error;
  conn_request : Request
}.

(** The loggers in memory after the handler has served the connections of
    [cs], one after the other. *)
Fixpoint serve_all (cs : list connection) (m : Memory) : Memory :=
  match cs with
  | [] => m
  | c :: cs' =>
      serve_all cs'
        (served_memory
           (ServeHTTP (conn_server c) (conn_upgrade c) (conn_request c) m))
  end.

(** A burst that can go out as one message: it has an instruction, none of
    its instructions is filtered, and together they stay below the cap. *)
Definition small_burst (l : list bytes) : Prop :=
  l <> [] /\
  Forall (fun ins => HasPrefix ins internalOpcodeIns = false) l /\
  Len (concat l) < MaxGuacMessage.

(** The answers of [Available()] in a trace, and the last of them. *)
Definition availability (t : list event) : list bool :=
  omap (fun e => match e with EvAvailable b => Some b | _ => None end) t.

Definition last_available (t : list event) : option bool :=
  last (availability t).

(** ** Properties of the outbound pump *)

Lemma sent_app (a b : list event) : sent (a ++ b) = sent a ++ sent b.
Proof. apply omap_app. Qed.

Lemma Len_app (a b : bytes) : Len (a ++ b) = Len a + Len b.
Proof. unfold Len. rewrite length_app. lia. Qed.

Lemma Len_nonneg (a : bytes) : 0 <= Len a.
Proof. unfold Len. lia. Qed.

(** A flush hands the whole buffer to [WriteMessage], once, as a text
    message. *)
Lemma flush_sent (ws : list (option error)) (buf : bytes) :
  sent (fst (flush ws buf)) = [buf].
Proof.
  unfold flush. destruct ws as [|[[|text]|] ws']; reflexivity.
Qed.

Lemma flush_step (ws : list (option error)) (buf : bytes) :
  snd (flush ws buf) =
    match fst (next_result ws) with
    | Some _ => Return buf
    | None => Continue (snd (next_result ws)) []
    end.
Proof.
  unfold flush. destruct ws as [|[[|text]|] ws']; reflexivity.
Qed.

(** The turn of the loop on an instruction that is not filtered. *)
Lemma guacdToWs_body_append (ins : bytes) (available : bool)
    (ws : list (option error)) (buf : bytes) :
  HasPrefix ins internalOpcodeIns = false ->
  guacdToWs_body (Ins ins available) ws buf =
    if negb available || (MaxGuacMessage <=? Len (buf ++ ins)) then
      (EvReadSome ins :: EvAvailable available :: fst (flush ws (buf ++ ins)),
       snd (flush ws (buf ++ ins)))
    else ([EvReadSome ins; EvAvailable available], Continue ws (buf ++ ins)).
Proof.
  intros Hf. unfold guacdToWs_body. rewrite Hf.
  destruct (negb available || (MaxGuacMessage <=? Len (buf ++ ins))); [|done].
  by destruct (flush ws (buf ++ ins)).
Qed.

Lemma trace_and_then (p : list event * step)
    (k : list (option error) -> bytes -> run) :
  trace (and_then p k) =
    fst p ++ match snd p with
             | Continue ws buf => trace (k ws buf)
             | Return _ => []
             end.
Proof. destruct p as [evs [ws buf|buf]]; simpl; [done|]. by rewrite app_nil_r. Qed.

Lemma status_and_then (p : list event * step)
    (k : list (option error) -> bytes -> run) :
  status (and_then p k) =
    match snd p with
    | Continue ws buf => status (k ws buf)
    | Return _ => Returned
    end.
Proof. by destruct p as [evs [ws buf|buf]]. Qed.

Lemma pending_and_then (p : list event * step)
    (k : list (option error) -> bytes -> run) :
  pending (and_then p k) =
    match snd p with
    | Continue ws buf => pending (k ws buf)
    | Return buf => buf
    end.
Proof. by destruct p as [evs [ws buf|buf]]. Qed.

(** A burst whose bytes stay below the cap goes out as one message. *)
Lemma guacdToWs_loop_burst (l : list bytes) :
  l <> [] ->
  Forall (fun ins => HasPrefix ins internalOpcodeIns = false) l ->
  forall (ws : list (option error)) (buf : bytes),
    Len (buf ++ concat l) < MaxGuacMessage ->
    sent (trace (guacdToWs_loop (burst l) ws buf)) = [buf ++ concat l].
Proof.
  induction l as [|ins l IH]; [done|].
  intros _ Hl ws buf Hlen. inversion Hl as [|? ? Hins Hl']; subst.
  destruct l as [|ins' l'].
  - simpl burst. simpl concat. rewrite app_nil_r in *.
    cbn [guacdToWs_loop]. rewrite trace_and_then.
    rewrite (guacdToWs_body_append _ _ _ _ Hins). cbn [negb orb fst snd].
    rewrite flush_step.
    change (EvReadSome ins :: EvAvailable false :: fst (flush ws (buf ++ ins)))
      with ([EvReadSome ins; EvAvailable false] ++ fst (flush ws (buf ++ ins))).
    rewrite !sent_app, flush_sent.
    destruct (fst (next_result ws)); simpl; done.
  - change (burst (ins :: ins' :: l')) with (Ins ins true :: burst (ins' :: l')).
    cbn [guacdToWs_loop]. rewrite trace_and_then.
    rewrite (guacdToWs_body_append _ _ _ _ Hins). cbn [negb orb].
    assert (Hsmall : (MaxGuacMessage <=? Len (buf ++ ins)) = false).
    { apply Z.leb_gt. simpl concat in Hlen. rewrite !Len_app in Hlen.
      rewrite Len_app.
      pose proof (Len_nonneg (ins' ++ concat l')). rewrite Len_app in *. lia. }
    rewrite Hsmall. cbn [fst snd]. rewrite sent_app.
    rewrite IH; [|done|done|].
    + simpl. by rewrite <- app_assoc.
    + simpl concat in *. by rewrite <- app_assoc.
Qed.

(** A burst goes out as one message and, when the websocket takes it, the
    pump goes on with an empty buffer. *)
Lemma guacdToWs_loop_burst_then (l : list bytes) (rest : list read_some) :
  l <> [] ->
  Forall (fun ins => HasPrefix ins internalOpcodeIns = false) l ->
  forall (ws : list (option error)) (buf : bytes),
    Len (buf ++ concat l) < MaxGuacMessage ->
    sent (trace (guacdToWs_loop (burst l ++ rest) ws buf)) =
      (buf ++ concat l) ::
      match fst (next_result ws) with
      | Some _ => []
      | None => sent (trace (guacdToWs_loop rest (snd (next_result ws)) []))
      end.
Proof.
  induction l as [|ins l IH]; [done|].
  intros _ Hl ws buf Hlen. inversion Hl as [|? ? Hins Hl']; subst.
  destruct l as [|ins' l'].
  - simpl burst. simpl concat. rewrite app_nil_r in *.
    cbn [app guacdToWs_loop]. rewrite trace_and_then.
    rewrite (guacdToWs_body_append _ _ _ _ Hins). cbn [negb orb fst snd].
    rewrite flush_step.
    change (EvReadSome ins :: EvAvailable false :: fst (flush ws (buf ++ ins)))
      with ([EvReadSome ins; EvAvailable false] ++ fst (flush ws (buf ++ ins))).
    rewrite !sent_app, flush_sent.
    by destruct (fst (next_result ws)).
  - change (burst (ins :: ins' :: l')) with (Ins ins true :: burst (ins' :: l')).
    cbn [app guacdToWs_loop]. rewrite trace_and_then.
    rewrite (guacdToWs_body_append _ _ _ _ Hins). cbn [negb orb].
    assert (Hsmall : (MaxGuacMessage <=? Len (buf ++ ins)) = false).
    { apply Z.leb_gt. simpl concat in Hlen. rewrite !Len_app in Hlen.
      rewrite Len_app.
      pose proof (Len_nonneg (ins' ++ concat l')). rewrite Len_app in *. lia. }
    rewrite Hsmall. cbn [fst snd]. rewrite sent_app.
    rewrite IH; [|done|done|].
    + simpl. by rewrite <- app_assoc.
    + simpl concat in *. by rewrite <- app_assoc.
Qed.

Lemma guacdToWs_loop_bursts (bs : list (list bytes)) :
  Forall small_burst bs ->
  forall ws : list (option error),
    Forall (fun r => r = None) ws ->
    sent (trace (guacdToWs_loop (flat_map burst bs) ws [])) = map (@concat byte) bs.
Proof.
  induction bs as [|l bs IH]; intros Hbs ws Hws; [done|].
  inversion Hbs as [|? ? (Hne & Hl & Hlen) Hbs']; subst.
  cbn [flat_map map]. rewrite guacdToWs_loop_burst_then; [|done|done|done].
  simpl. destruct ws as [|r ws']; simpl.
  - f_equal. by apply IH.
  - inversion Hws as [|? ? -> Hws']; subst. f_equal. by apply IH.
Qed.

(** C1. In [guacdToWs], the turn of the loop that appends an instruction
    that is not filtered flushes the buffer, as one message holding the
    whole buffer, exactly when [Available()] is false or the buffer has
    reached [MaxGuacMessage], and otherwise keeps the buffer and sends
    nothing; a flush that the websocket takes leaves the buffer empty, and
    one it refuses ends the pump. So a burst of instructions that are all
    buffered and stay below the cap goes out as exactly one message, their
    bytes in order, after which the pump goes on as from its start; bursts
    that follow one another give one message each; and an instruction that
    alone meets the cap is flushed in the turn that appends it, whatever
    [Available()] says. *)
Theorem guacdToWs_flush_policy :
  (forall (ins : bytes) (available : bool) (ws : list (option error))
          (buf : bytes),
     HasPrefix ins internalOpcodeIns = false ->
     let turn := guacdToWs_body (Ins ins available) ws buf in
     (sent (fst turn) = [buf ++ ins] <->
        available = false \/ MaxGuacMessage <= Len (buf ++ ins)) /\
     (~ (available = false \/ MaxGuacMessage <= Len (buf ++ ins)) ->
        sent (fst turn) = [] /\ snd turn = Continue ws (buf ++ ins))) /\
  (forall (l : list bytes) (ws : list (option error)),
     l <> [] ->
     Forall (fun ins => HasPrefix ins internalOpcodeIns = false) l ->
     Len (concat l) < MaxGuacMessage ->
     sent (trace (guacdToWs (burst l) ws)) = [concat l]) /\
  (forall (ins : bytes) (available : bool) (ws : list (option error))
          (buf : bytes),
     HasPrefix ins internalOpcodeIns = false ->
     MaxGuacMessage <= Len ins ->
     sent (fst (guacdToWs_body (Ins ins available) ws buf)) = [buf ++ ins]) /\
  (forall (ins : bytes) (available : bool) (ws : list (option error))
          (buf : bytes),
     HasPrefix ins internalOpcodeIns = false ->
     available = false \/ MaxGuacMessage <= Len (buf ++ ins) ->
     snd (guacdToWs_body (Ins ins available) ws buf) =
       match fst (next_result ws) with
       | None => Continue (snd (next_result ws)) []
       | Some _ => Return (buf ++ ins)
       end) /\
  (forall (l : list bytes) (rest : list read_some) (ws : list (option error)),
     l <> [] ->
     Forall (fun ins => HasPrefix ins internalOpcodeIns = false) l ->
     Len (concat l) < MaxGuacMessage ->
     sent (trace (guacdToWs (burst l ++ rest) ws)) =
       concat l ::
       match fst (next_result ws) with
       | Some _ => []
       | None => sent (trace (guacdToWs rest (snd (next_result ws))))
       end) /\
  (forall (bs : list (list bytes)) (ws : list (option error)),
     Forall small_burst bs ->
     Forall (fun r => r = None) ws ->
     sent (trace (guacdToWs (flat_map burst bs) ws)) = map (@concat byte) bs).
Proof.
  split; [|split; [|split; [|split; [|split]]]].
  - intros ins available ws buf Hf turn. subst turn.
    rewrite (guacdToWs_body_append _ _ _ _ Hf).
    destruct (negb available || (MaxGuacMessage <=? Len (buf ++ ins))) eqn:Hc.
    + cbn [fst snd].
      change (sent (EvReadSome ins :: EvAvailable available ::
                    fst (flush ws (buf ++ ins))))
        with (sent (fst (flush ws (buf ++ ins)))).
      rewrite flush_sent.
      apply orb_true_iff in Hc as [Ha|Hl].
      * split; [split; [left; by destruct available|done]|].
        intros Hn. exfalso. apply Hn. left. by destruct available.
      * apply Z.leb_le in Hl. split; [split; [by right|done]|].
        intros Hn. exfalso. apply Hn. by right.
    + apply orb_false_iff in Hc as [Ha Hl]. apply Z.leb_gt in Hl.
      cbn [fst snd]. split; [|done].
      split; [done|]. intros [->|Hge]; [done|lia].
  - intros l ws Hne Hl Hlen. unfold guacdToWs.
    by rewrite guacdToWs_loop_burst.
  - intros ins available ws buf Hf Hge.
    rewrite (guacdToWs_body_append _ _ _ _ Hf).
    assert (Hc : (MaxGuacMessage <=? Len (buf ++ ins)) = true).
    { apply Z.leb_le. rewrite Len_app. pose proof (Len_nonneg buf). lia. }
    rewrite Hc, orb_true_r. cbn [fst].
    change (sent (EvReadSome ins :: EvAvailable available ::
                  fst (flush ws (buf ++ ins))))
      with (sent (fst (flush ws (buf ++ ins)))).
    apply flush_sent.
  - intros ins available ws buf Hf Hcond.
    rewrite (guacdToWs_body_append _ _ _ _ Hf).
    assert (Hc : negb available || (MaxGuacMessage <=? Len (buf ++ ins)) = true).
    { apply orb_true_iff. destruct Hcond as [->|Hge]; [by left|].
      right. by apply Z.leb_le. }
    rewrite Hc. cbn [snd]. apply flush_step.
  - intros l rest ws Hne Hl Hlen. unfold guacdToWs.
    by rewrite guacdToWs_loop_burst_then.
  - intros bs ws Hbs Hws. by apply guacdToWs_loop_bursts.
Qed.

(** *** The size of a flushed message *)

(** At the head of the loop the buffer is below the cap, and a message
    that goes out is the buffer plus one instruction. *)
Lemma guacdToWs_loop_sent_bound (guacd : list read_some) :
  0 < MaxGuacMessage ->
  instructions_within MaxGuacMessage guacd ->
  forall (ws : list (option error)) (buf : bytes),
    Len buf < MaxGuacMessage ->
    Forall (fun d => Len d < 2 * MaxGuacMessage)
           (sent (trace (guacdToWs_loop guacd ws buf))).
Proof.
  intros Hpos. induction guacd as [|r guacd IH]; intros Hw ws buf Hbuf.
  { constructor. }
  inversion Hw as [|? ? Hr Hw']; subst.
  cbn [guacdToWs_loop]. rewrite trace_and_then.
  destruct r as [ins available|err]; [|simpl; constructor].
  destruct (HasPrefix ins internalOpcodeIns) eqn:Hf.
  { unfold guacdToWs_body. rewrite Hf. cbn [fst snd]. rewrite sent_app.
    simpl. by apply IH. }
  rewrite (guacdToWs_body_append _ _ _ _ Hf).
  destruct (negb available || (MaxGuacMessage <=? Len (buf ++ ins))) eqn:Hc.
  - cbn [fst snd].
    change (EvReadSome ins :: EvAvailable available :: fst (flush ws (buf ++ ins)))
      with ([EvReadSome ins; EvAvailable available] ++ fst (flush ws (buf ++ ins))).
    rewrite !sent_app, flush_sent, flush_step. simpl.
    constructor.
    + rewrite Len_app. lia.
    + destruct (fst (next_result ws)); [constructor|].
      apply IH; [done|]. unfold Len. simpl. lia.
  - apply orb_false_iff in Hc as [_ Hl]. apply Z.leb_gt in Hl.
    cbn [fst snd]. rewrite sent_app. simpl. by apply IH.
Qed.

(** C3, as the code has it. With a positive cap and no instruction longer
    than the cap, every message the outbound pump hands to [WriteMessage]
    is shorter than twice [MaxGuacMessage], the size of the websocket write
    buffer; it can be longer than [MaxGuacMessage] itself. *)
Theorem guacdToWs_message_below_write_buffer :
  forall (guacd : list read_some) (ws : list (option error)),
    0 < MaxGuacMessage ->
    instructions_within MaxGuacMessage guacd ->
    Forall (fun d => Len d < websocketWriteBufferSize)
           (sent (trace (guacdToWs guacd ws))).
Proof.
  intros guacd ws Hpos Hw. unfold websocketWriteBufferSize, guacdToWs.
  eapply Forall_impl; [by apply guacdToWs_loop_sent_bound|].
  simpl. intros d Hd. lia.
Qed.

(** *** Filtered instructions and the flush *)

(** C8. A turn of the loop of [guacdToWs] on a filtered instruction reads
    it and nothing else: [Available()] is not asked, nothing is written and
    the buffer is as it was, so the next thing the pump does is the next
    read, and with nothing to read it waits there with its bytes unsent,
    whatever [Available()] would have answered. A turn asks [Available()]
    or writes only when it has appended an instruction that is not
    filtered. *)
Theorem guacdToWs_filtered_skips_flush :
  forall (ins : bytes) (available : bool) (guacd : list read_some)
         (ws : list (option error)) (buf : bytes),
    HasPrefix ins internalOpcodeIns = true ->
    guacdToWs_body (Ins ins available) ws buf =
      ([EvReadSome ins], Continue ws buf) /\
    guacdToWs_loop (Ins ins available :: guacd) ws buf =
      prepend [EvReadSome ins] (guacdToWs_loop guacd ws buf) /\
    guacdToWs_loop [Ins ins available] ws buf =
      mkRun [EvReadSome ins] buf Blocked /\
    (forall (r : read_some) (b : bool),
       (EvAvailable b ∈ fst (guacdToWs_body r ws buf) \/
        sent (fst (guacdToWs_body r ws buf)) <> []) ->
       exists ins' available',
         r = Ins ins' available' /\
         HasPrefix ins' internalOpcodeIns = false).
Proof.
  intros ins available guacd ws buf Hf.
  assert (Hbody : guacdToWs_body (Ins ins available) ws buf =
                    ([EvReadSome ins], Continue ws buf)).
  { unfold guacdToWs_body. by rewrite Hf. }
  split; [done|]. split; [|split].
  - cbn [guacdToWs_loop]. by rewrite Hbody.
  - cbn [guacdToWs_loop]. by rewrite Hbody.
  - intros [ins' available'|err] b H.
    + exists ins', available'. split; [done|].
      destruct (HasPrefix ins' internalOpcodeIns) eqn:Hf'; [|done].
      unfold guacdToWs_body in H. rewrite Hf' in H. simpl in H.
      destruct H as [H|H]; [|done].
      apply list_elem_of_singleton in H. discriminate.
    + simpl in H. destruct H as [H|H]; [|done].
      apply elem_of_cons in H as [H|H]; [discriminate|].
      apply list_elem_of_singleton in H. discriminate.
Qed.

(** *** Message types *)

Lemma guacdToWs_loop_text (guacd : list read_some) :
  forall (ws : list (option error)) (buf : bytes),
    Forall text_if_written (trace (guacdToWs_loop guacd ws buf)).
Proof.
  induction guacd as [|r guacd IH]; intros ws buf; [constructor|].
  cbn [guacdToWs_loop]. rewrite trace_and_then. apply Forall_app.
  destruct r as [ins available|err]; [|by repeat constructor].
  unfold guacdToWs_body, flush.
  destruct (HasPrefix ins internalOpcodeIns).
  { split; [by repeat constructor|apply IH]. }
  destruct (negb available || (MaxGuacMessage <=? Len (buf ++ ins))).
  - destruct ws as [|[[|text]|] ws']; simpl;
      (split; [by repeat constructor|first [apply IH|constructor]]).
  - split; [by repeat constructor|apply IH].
Qed.

Lemma wsToGuacd_loop_retype (f : Z -> Z) (ws : list read_message) :
  forall (guacd : list (option error)) (buf : bytes),
    map forget_type (trace (wsToGuacd_loop (map (retype f) ws) guacd buf)) =
      map forget_type (trace (wsToGuacd_loop ws guacd buf)) /\
    status (wsToGuacd_loop (map (retype f) ws) guacd buf) =
      status (wsToGuacd_loop ws guacd buf).
Proof.
  induction ws as [|r ws IH]; intros guacd buf; [done|].
  cbn [map wsToGuacd_loop]. rewrite !trace_and_then, !status_and_then.
  destruct r as [messageType data|err]; [|done].
  unfold wsToGuacd_body. cbn [retype].
  destruct (HasPrefix data internalOpcodeIns).
  { cbn [fst snd]. rewrite !map_app. destruct (IH guacd buf) as [-> ->]. done. }
  destruct guacd as [|[e|] guacd']; cbn [next_result fst snd]; [|done|].
  - rewrite !map_app. destruct (IH [] buf) as [-> ->]. done.
  - rewrite !map_app. destruct (IH guacd' buf) as [-> ->]. done.
Qed.

(** C9. Every message the outbound pump hands to [WriteMessage] has
    message type 1 (text), whatever its bytes; and the inbound pump does
    not look at the message type of what it reads: the same messages
    arriving with any other types give the same run. *)
Theorem pumps_message_type :
  (forall (guacd : list read_some) (ws : list (option error)),
     Forall text_if_written (trace (guacdToWs guacd ws))) /\
  (forall (f : Z -> Z) (ws : list read_message) (guacd : list (option error)),
     map forget_type (trace (wsToGuacd (map (retype f) ws) guacd)) =
       map forget_type (trace (wsToGuacd ws guacd)) /\
     written (trace (wsToGuacd (map (retype f) ws) guacd)) =
       written (trace (wsToGuacd ws guacd)) /\
     status (wsToGuacd (map (retype f) ws) guacd) =
       status (wsToGuacd ws guacd)).
Proof.
  split.
  - intros guacd ws. apply guacdToWs_loop_text.
  - intros f ws guacd. unfold wsToGuacd.
    destruct (wsToGuacd_loop_retype f ws guacd []) as [Ht Hs].
    split; [done|]. split; [|done].
    assert (Hw : forall t, written t = written (map forget_type t)).
    { induction t as [|e t IHt]; [done|].
      destruct e as [[]| | | | | | | | | | | | | | | | | | | | | |]; simpl;
        by rewrite ?IHt. }
    by rewrite Hw, Ht, <- Hw.
Qed.

(** *** Filtering *)

Lemma written_app (a b : list event) : written (a ++ b) = written a ++ written b.
Proof. apply omap_app. Qed.

Lemma delivered_app (a b : list event) :
  delivered (a ++ b) = delivered a ++ delivered b.
Proof. apply omap_app. Qed.

Lemma messages_read_app (a b : list event) :
  messages_read (a ++ b) = messages_read a ++ messages_read b.
Proof. apply omap_app. Qed.

Lemma instructions_read_app (a b : list event) :
  instructions_read (a ++ b) = instructions_read a ++ instructions_read b.
Proof. apply omap_app. Qed.

(** The inbound pump hands to the tunnel writer exactly the messages it
    read that are not filtered, each as it was read. *)
Lemma wsToGuacd_loop_written (ws : list read_message) :
  forall (guacd : list (option error)) (buf : bytes),
    written (trace (wsToGuacd_loop ws guacd buf)) =
      List.filter forwardable (messages_read (trace (wsToGuacd_loop ws guacd buf))).
Proof.
  induction ws as [|r ws IH]; intros guacd buf; [done|].
  cbn [wsToGuacd_loop]. rewrite trace_and_then.
  destruct r as [messageType data|err]; [|done].
  unfold wsToGuacd_body.
  destruct (HasPrefix data internalOpcodeIns) eqn:Hf.
  { cbn [fst snd]. rewrite written_app, messages_read_app, List.filter_app.
    simpl. unfold forwardable at 1. rewrite Hf. simpl. apply IH. }
  destruct guacd as [|[e|] guacd']; cbn [next_result fst snd];
    rewrite written_app, messages_read_app, List.filter_app; simpl;
    unfold forwardable at 1; rewrite Hf; simpl; [|done|]; f_equal; apply IH.
Qed.

(** The messages the websocket accepted from the outbound pump, followed
    by the bytes still in its buffer, are the buffer it started with
    followed by the instructions it read that are not filtered. *)
Lemma guacdToWs_loop_delivered (guacd : list read_some) :
  forall (ws : list (option error)) (buf : bytes),
    let r := guacdToWs_loop guacd ws buf in
    concat (delivered (trace r)) ++ pending r =
      buf ++ concat (List.filter forwardable (instructions_read (trace r))).
Proof.
  induction guacd as [|r guacd IH]; intros ws buf; simpl.
  { by rewrite app_nil_r. }
  rewrite trace_and_then, pending_and_then.
  destruct r as [ins available|err]; [|simpl; by rewrite app_nil_r].
  unfold guacdToWs_body, flush.
  destruct (HasPrefix ins internalOpcodeIns) eqn:Hf.
  { cbn [fst snd]. rewrite delivered_app, instructions_read_app, List.filter_app.
    simpl. unfold forwardable at 1. rewrite Hf. simpl. apply IH. }
  assert (Hfw : forwardable ins = true) by (unfold forwardable; by rewrite Hf).
  destruct (negb available || (MaxGuacMessage <=? Len (buf ++ ins))).
  - destruct ws as [|[[|text]|] ws']; cbn [next_result is_ErrCloseSent fst snd];
      rewrite ?delivered_app, ?instructions_read_app, ?List.filter_app; simpl;
      rewrite Hfw; simpl; rewrite ?app_nil_r; try done.
    + specialize (IH [] []). simpl in IH. rewrite <- !app_assoc. by rewrite IH.
    + specialize (IH ws' []). simpl in IH. rewrite <- !app_assoc. by rewrite IH.
  - cbn [fst snd]. rewrite delivered_app, instructions_read_app, List.filter_app.
    simpl. rewrite Hfw. simpl. specialize (IH ws (buf ++ ins)). simpl in IH.
    rewrite IH. by rewrite <- app_assoc.
Qed.

(** A payload handed to [WriteMessage] was accepted, unless it is the last
    one: then the write failed, the pump returned, and the payload is the
    buffer it returned with. *)
Lemma guacdToWs_loop_sent (guacd : list read_some) :
  forall (ws : list (option error)) (buf : bytes),
    let r := guacdToWs_loop guacd ws buf in
    sent (trace r) = delivered (trace r) \/
    sent (trace r) = delivered (trace r) ++ [pending r].
Proof.
  induction guacd as [|r guacd IH]; intros ws buf; simpl; [by left|].
  rewrite trace_and_then, pending_and_then.
  destruct r as [ins available|err]; [|by left].
  unfold guacdToWs_body, flush.
  destruct (HasPrefix ins internalOpcodeIns).
  { cbn [fst snd]. rewrite sent_app, delivered_app. apply IH. }
  destruct (negb available || (MaxGuacMessage <=? Len (buf ++ ins))).
  - destruct ws as [|[[|text]|] ws']; cbn [next_result is_ErrCloseSent fst snd];
      rewrite ?sent_app, ?delivered_app; simpl; try (by right).
    + destruct (IH [] []) as [H|H]; simpl in H; rewrite H; [by left|by right].
    + destruct (IH ws' []) as [H|H]; simpl in H; rewrite H; [by left|by right].
  - cbn [fst snd]. rewrite sent_app, delivered_app. apply IH.
Qed.

Lemma last_available_app (a b : list event) :
  last_available (a ++ b) =
    match last_available b with
    | Some x => Some x
    | None => last_available a
    end.
Proof. unfold last_available, availability. rewrite omap_app. apply last_app. Qed.

(** Why bytes are in the buffer of the outbound pump, if any are: the
    [WriteMessage] that carried them failed and the pump returned, or the
    last answer of [Available()] was true, or nothing was appended and they
    are the bytes the loop started with. *)
Lemma guacdToWs_loop_pending_cause (guacd : list read_some) :
  forall (ws : list (option error)) (buf : bytes),
    let r := guacdToWs_loop guacd ws buf in
    (status r = Returned /\ sent (trace r) = delivered (trace r) ++ [pending r]) \/
    pending r = [] \/
    last_available (trace r) = Some true \/
    (last_available (trace r) = None /\ pending r = buf).
Proof.
  induction guacd as [|r guacd IH]; intros ws buf; cbv zeta.
  { by right; right; right. }
  cbn [guacdToWs_loop].
  rewrite trace_and_then, status_and_then, pending_and_then.
  destruct r as [ins available|err]; [|by right; right; right].
  unfold guacdToWs_body, flush.
  destruct (HasPrefix ins internalOpcodeIns).
  { cbn [fst snd]. rewrite sent_app, delivered_app, last_available_app.
    destruct (IH ws buf) as [H|[H|[H|[H1 H2]]]]; cbv zeta in *.
    - left. exact H.
    - right; left. exact H.
    - right; right; left. by rewrite H.
    - right; right; right. by rewrite H1. }
  destruct (negb available || (MaxGuacMessage <=? Len (buf ++ ins))) eqn:Hc.
  - destruct ws as [|[[|text]|] ws']; cbn [next_result is_ErrCloseSent fst snd];
      try (by left).
    + rewrite sent_app, delivered_app, last_available_app.
      destruct (IH [] []) as [[Hs H]|[H|[H|[H1 H2]]]]; cbv zeta in *.
      * left. split; [exact Hs|]. simpl. by rewrite H.
      * right; left. exact H.
      * right; right; left. by rewrite H.
      * right; left. exact H2.
    + rewrite sent_app, delivered_app, last_available_app.
      destruct (IH ws' []) as [[Hs H]|[H|[H|[H1 H2]]]]; cbv zeta in *.
      * left. split; [exact Hs|]. simpl. by rewrite H.
      * right; left. exact H.
      * right; right; left. by rewrite H.
      * right; left. exact H2.
  - apply orb_false_iff in Hc as [Ha _]. destruct available; [|done].
    cbn [fst snd]. rewrite sent_app, delivered_app, last_available_app.
    destruct (IH ws (buf ++ ins)) as [H|[H|[H|[H1 H2]]]]; cbv zeta in *.
    + left. exact H.
    + right; left. exact H.
    + right; right; left. by rewrite H.
    + right; right; left. by rewrite H1.
Qed.

(** C2, as the code has it. A message or an instruction that begins with
    the reserved opcode is dropped. The inbound pump hands every other
    message, byte for byte and in order, to the tunnel writer. The outbound
    pump forwards every other instruction, byte for byte and in order,
    through its buffer: the messages the websocket accepted, followed by the
    bytes still in the buffer, are exactly those instructions, and what the
    pump hands to [WriteMessage] is a prefix of them, all of it accepted but
    for a last message whose write failed. Bytes are still in the buffer
    only when the [WriteMessage] that carried them failed, or when
    [Available()] last answered true, so that the pump went on to read; if
    the pump then stops, they have not been forwarded. *)
Theorem pumps_filter_and_forward :
  (forall (ws : list read_message) (guacd : list (option error)),
     let r := wsToGuacd ws guacd in
     written (trace r) = List.filter forwardable (messages_read (trace r))) /\
  (forall (guacd : list read_some) (ws : list (option error)),
     let r := guacdToWs guacd ws in
     concat (delivered (trace r)) ++ pending r =
       concat (List.filter forwardable (instructions_read (trace r))) /\
     concat (sent (trace r)) `prefix_of`
       concat (List.filter forwardable (instructions_read (trace r))) /\
     (sent (trace r) = delivered (trace r) \/
      sent (trace r) = delivered (trace r) ++ [pending r]) /\
     (pending r <> [] ->
      (status r = Returned /\
       sent (trace r) = delivered (trace r) ++ [pending r]) \/
      last_available (trace r) = Some true)).
Proof.
  split.
  - intros ws guacd. apply wsToGuacd_loop_written.
  - intros guacd ws.
    pose proof (guacdToWs_loop_delivered guacd ws []) as Hd.
    unfold guacdToWs. cbv zeta in *. simpl in Hd. split; [exact Hd|].
    split; [|split].
    + rewrite <- Hd.
      destruct (guacdToWs_loop_sent guacd ws []) as [Hs|Hs]; rewrite Hs.
      * by apply prefix_app_r.
      * rewrite concat_app. simpl. by rewrite app_nil_r.
    + apply guacdToWs_loop_sent.
    + intros Hne.
      destruct (guacdToWs_loop_pending_cause guacd ws [])
        as [H|[H|[H|[_ H]]]]; cbv zeta in *; [by left|done|by right|done].
Qed.

(** *** Errors *)

Lemma stops_at_failure_split (st : Status) (t pre post : list event) (e : event) :
  stops_at_failure st t ->
  t = pre ++ e :: post ->
  failed e = true ->
  st = Returned /\ epilogue e post.
Proof.
  revert t. induction pre as [|x pre IH]; intros t Ht -> He; simpl in Ht.
  - by rewrite He in Ht.
  - destruct (failed x) eqn:Hx; [|by eapply IH].
    destruct Ht as [_ [Hlogs _]]. exfalso.
    apply Forall_app in Hlogs as [_ Hlogs]. apply Forall_cons in Hlogs as [Hlog _].
    destruct e; simpl in *; congruence.
Qed.

Lemma wsToGuacd_loop_stops (ws : list read_message) :
  forall (guacd : list (option error)) (buf : bytes),
    let r := wsToGuacd_loop ws guacd buf in
    stops_at_failure (status r) (trace r).
Proof.
  induction ws as [|r ws IH]; intros guacd buf; [done|].
  cbn [wsToGuacd_loop]. cbv zeta. rewrite trace_and_then, status_and_then.
  destruct r as [messageType data|err].
  - unfold wsToGuacd_body. destruct (HasPrefix data internalOpcodeIns).
    { simpl. apply IH. }
    destruct guacd as [|[e|] guacd']; simpl; [apply IH| |apply IH].
    split; [done|]. split; [|done]. by repeat constructor.
  - simpl. split; [done|]. split; [|done]. by repeat constructor.
Qed.

Lemma guacdToWs_loop_stops (guacd : list read_some) :
  forall (ws : list (option error)) (buf : bytes),
    let r := guacdToWs_loop guacd ws buf in
    stops_at_failure (status r) (trace r).
Proof.
  induction guacd as [|r guacd IH]; intros ws buf; [done|].
  cbn [guacdToWs_loop]. cbv zeta. rewrite trace_and_then, status_and_then.
  destruct r as [ins available|err].
  - unfold guacdToWs_body, flush.
    destruct (HasPrefix ins internalOpcodeIns).
    { simpl. apply IH. }
    destruct (negb available || (MaxGuacMessage <=? Len (buf ++ ins))).
    + destruct ws as [|[[|text]|] ws']; simpl; try apply IH;
        (split; [done|]); (split; [|done]); by repeat constructor.
    + simpl. apply IH.
  - simpl. split; [done|]. split; [|done]. by repeat constructor.
Qed.

(** A pump does not read past a read error. *)
Lemma wsToGuacd_loop_returns (ws : list read_message) (err : error) :
  ReadMessageErr err ∈ ws ->
  forall (guacd : list (option error)) (buf : bytes),
    status (wsToGuacd_loop ws guacd buf) = Returned.
Proof.
  induction ws as [|r ws IH]; intros Hin guacd buf.
  { by apply elem_of_nil in Hin. }
  cbn [wsToGuacd_loop]. rewrite status_and_then.
  destruct r as [messageType data|err']; [|done].
  apply elem_of_cons in Hin as [Hin|Hin]; [discriminate|].
  unfold wsToGuacd_body. destruct (HasPrefix data internalOpcodeIns).
  { simpl. by apply IH. }
  destruct guacd as [|[e|] guacd']; simpl; [|done|]; by apply IH.
Qed.

Lemma guacdToWs_loop_returns (guacd : list read_some) (err : error) :
  ReadSomeErr err ∈ guacd ->
  forall (ws : list (option error)) (buf : bytes),
    status (guacdToWs_loop guacd ws buf) = Returned.
Proof.
  induction guacd as [|r guacd IH]; intros Hin ws buf.
  { by apply elem_of_nil in Hin. }
  cbn [guacdToWs_loop]. rewrite status_and_then.
  destruct r as [ins available|err']; [|done].
  apply elem_of_cons in Hin as [Hin|Hin]; [discriminate|].
  unfold guacdToWs_body, flush. destruct (HasPrefix ins internalOpcodeIns).
  { simpl. by apply IH. }
  destruct (negb available || (MaxGuacMessage <=? Len (buf ++ ins))).
  - destruct ws as [|[[|text]|] ws']; simpl; try done; by apply IH.
  - simpl. by apply IH.
Qed.

(** C4. Each pump stops at its first error and tries nothing again. In a
    run of [wsToGuacd] a failed [ReadMessage] or a failed [Write], and in a
    run of [guacdToWs] a failed [ReadSome] or a failed [WriteMessage], is
    the last call the pump makes on its reader or writer: the pump has
    returned, and only log calls follow the failed call. A pump whose
    reader has a read error in store returns. After a [WriteMessage] that
    failed with [websocket.ErrCloseSent] the one log call is at Debug
    level and carries no error; after any other write error it is at Warn
    level and carries the error. *)
Theorem pumps_stop_at_first_error :
  (forall (ws : list read_message) (guacd : list (option error))
          (pre post : list event) (e : event),
     trace (wsToGuacd ws guacd) = pre ++ e :: post ->
     failed e = true ->
     status (wsToGuacd ws guacd) = Returned /\ epilogue e post) /\
  (forall (ws : list read_message) (guacd : list (option error)) (err : error),
     ReadMessageErr err ∈ ws ->
     status (wsToGuacd ws guacd) = Returned) /\
  (forall (guacd : list read_some) (ws : list (option error))
          (pre post : list event) (e : event),
     trace (guacdToWs guacd ws) = pre ++ e :: post ->
     failed e = true ->
     status (guacdToWs guacd ws) = Returned /\ epilogue e post) /\
  (forall (guacd : list read_some) (ws : list (option error)) (err : error),
     ReadSomeErr err ∈ guacd ->
     status (guacdToWs guacd ws) = Returned).
Proof.
  split; [|split; [|split]].
  - intros ws guacd pre post e Ht He.
    eapply stops_at_failure_split; [|exact Ht|exact He].
    apply wsToGuacd_loop_stops.
  - intros ws guacd err Hin. by eapply wsToGuacd_loop_returns.
  - intros guacd ws pre post e Ht He.
    eapply stops_at_failure_split; [|exact Ht|exact He].
    apply guacdToWs_loop_stops.
  - intros guacd ws err Hin. by eapply guacdToWs_loop_returns.
Qed.

(** ** Properties of the handler *)

Lemma guacdToWs_loop_pump_events (guacd : list read_some) :
  forall (ws : list (option error)) (buf : bytes),
    Forall (fun e => is_pump_event e = true) (trace (guacdToWs_loop guacd ws buf)).
Proof.
  induction guacd as [|r guacd IH]; intros ws buf; [constructor|].
  cbn [guacdToWs_loop]. rewrite trace_and_then. apply Forall_app.
  destruct r as [ins available|err]; [|by repeat constructor].
  unfold guacdToWs_body, flush.
  destruct (HasPrefix ins internalOpcodeIns).
  { split; [by repeat constructor|apply IH]. }
  destruct (negb available || (MaxGuacMessage <=? Len (buf ++ ins))).
  - destruct ws as [|[[|text]|] ws']; simpl;
      (split; [by repeat constructor|first [apply IH|constructor]]).
  - split; [by repeat constructor|apply IH].
Qed.

Lemma pump_events_no_callbacks (t : list event) :
  Forall (fun e => is_pump_event e = true) t ->
  callbacks t = [] /\ teardown t = [].
Proof.
  induction 1 as [|e t He _ [IHc IHt]]; [done|].
  unfold callbacks, teardown in *. simpl. rewrite IHc, IHt.
  by destruct e.
Qed.

Lemma split_at_go (a b c d : list event) :
  (a ++ b ++ [EvGo_wsToGuacd] ++ c) ++ d = (a ++ b) ++ EvGo_wsToGuacd :: c ++ d.
Proof. by rewrite <- !app_assoc. Qed.


Lemma teardown_app (a b : list event) :
  teardown (a ++ b) = teardown a ++ teardown b.
Proof. apply List.filter_app. Qed.

(** C5. When the connect step gives a tunnel, the trace of the handler
    is: a first part, the start of the inbound pump, the run of the
    outbound pump, a last part. The first part invokes each connect
    callback that is set once, [OnConnect] before [OnConnectWs], and
    releases or closes nothing; the pump invokes no callback. When the
    outbound pump returns, whatever made it return and whatever the inbound
    pump met, the handler returns and the last part releases the reader,
    releases the writer, invokes each disconnect callback that is set
    once and closes the tunnel. When the connect step fails, the handler
    invokes no callback, releases nothing and closes no tunnel. *)
Theorem ServeHTTP_lifecycle :
  (forall (s : WebsocketServer) (ws : Conn) (r : Request) (m : Memory)
          (tunnel : Tunnel),
     connect_step s ws r = Some (inl tunnel) ->
     let res := ServeHTTP s (inl ws) r m in
     let id := ConnectionID tunnel in
     let outbound := guacdToWs (tunnel_reads tunnel) (ws_writes ws) in
     exists before after : list event,
       served_trace res = before ++ EvGo_wsToGuacd :: trace outbound ++ after /\
       callbacks before =
         call_if_set (OnConnect s) (fun f => EvOnConnect f id) ++
         call_if_set (OnConnectWs s) (fun f => EvOnConnectWs f id) /\
       teardown before = [] /\
       callbacks (trace outbound) = [] /\
       teardown (trace outbound) = [] /\
       served_go res = Some (wsToGuacd (ws_reads ws) (tunnel_writes tunnel)) /\
       (status outbound = Returned ->
        served_status res = Returned /\
        callbacks after =
          call_if_set (OnDisconnectWs s) (fun f => EvOnDisconnectWs f id) ++
          call_if_set (OnDisconnect s) (fun f => EvOnDisconnect f id) /\
        teardown after =
          [EvReleaseReader; EvReleaseWriter; EvTunnelClose (tunnel_close tunnel)])) /\
  (forall (s : WebsocketServer) (ws : Conn) (r : Request) (m : Memory)
          (e : error),
     connect_step s ws r = Some (inr e) ->
     let res := ServeHTTP s (inl ws) r m in
     served_status res = Returned /\
     callbacks (served_trace res) = [] /\
     teardown (served_trace res) = [] /\
     served_go res = None).
Proof.
  split.
  - intros s ws r m tunnel Hc. cbv zeta.
    destruct (pump_events_no_callbacks
                (trace (guacdToWs (tunnel_reads tunnel) (ws_writes ws)))
                (guacdToWs_loop_pump_events _ _ _)) as [Hnc Hnt].
    unfold connect_step in Hc. unfold ServeHTTP.
    destruct (connect s) as [c|]; [|destruct (connectWs s) as [c|]; [|done]];
      injection Hc as Hc; rewrite Hc; cbv beta iota zeta;
      (destruct (status (guacdToWs (tunnel_reads tunnel) (ws_writes ws))) eqn:Hst;
       cbn [served_trace served_go served_status];
       eexists; eexists;
       (split; [first [apply split_at_go
                      |rewrite <- (app_nil_r (_ ++ _ ++ _ ++ _)); apply split_at_go]|]);
       (split; [by destruct (OnConnect s), (OnConnectWs s)|]);
       (split; [by destruct (OnConnect s), (OnConnectWs s)|]);
       (split; [done|]); (split; [done|]); (split; [done|]); try done;
       intros _; (split; [done|]);
       split; destruct (OnDisconnect s), (OnDisconnectWs s); simpl;
         destruct (tunnel_close tunnel), (ws_close ws); reflexivity).
  - intros s ws r m e Hc res. subst res.
    unfold connect_step in Hc. unfold ServeHTTP.
    destruct (connect s) as [c|].
    + injection Hc as Hc. rewrite Hc. simpl.
      by destruct (ws_close ws).
    + destruct (connectWs s) as [c|]; [|done].
      injection Hc as Hc. rewrite Hc. simpl.
      by destruct (ws_close ws).
Qed.

(** *** The upgrade *)

(** C6. The handler begins by calling [Upgrade] with a read buffer of
    [MaxGuacMessage] bytes, a write buffer of twice that, and a response
    header whose [Sec-Websocket-Protocol] entry is the one value that
    [Header.Get] finds in the request: the token the client asked for,
    as it was sent. *)
Theorem ServeHTTP_upgrade :
  forall (s : WebsocketServer) (upgrade : Conn + error) (r : Request)
         (m : Memory),
    exists (ReadBufferSize WriteBufferSize : Z)
           (responseHeader : gmap string (list string))
           (err : option error) (rest : list event),
      served_trace (ServeHTTP s upgrade r m) =
        EvUpgrade ReadBufferSize WriteBufferSize responseHeader err :: rest /\
      MaxGuacMessage <= ReadBufferSize /\
      2 * MaxGuacMessage <= WriteBufferSize /\
      responseHeader !! "Sec-Websocket-Protocol" =
        Some [Get (Header r) "Sec-Websocket-Protocol"] /\
      (forall (token : string) (others : list string),
         Header r !! "Sec-Websocket-Protocol" = Some (token :: others) ->
         responseHeader !! "Sec-Websocket-Protocol" = Some [token]).
Proof.
  intros s upgrade r m.
  exists websocketReadBufferSize, websocketWriteBufferSize,
    {[ "Sec-Websocket-Protocol" := [Get (Header r) "Sec-Websocket-Protocol"] ]}.
  assert (Htrace : exists err rest,
    served_trace (ServeHTTP s upgrade r m) =
      EvUpgrade websocketReadBufferSize websocketWriteBufferSize
        {[ "Sec-Websocket-Protocol" := [Get (Header r) "Sec-Websocket-Protocol"] ]}
        err :: rest).
  { unfold ServeHTTP. destruct upgrade as [ws|err]; [|by eexists; eexists].
    destruct (connect s) as [c|]; [destruct (c r) as [tunnel|e]|
      destruct (connectWs s) as [c|]; [destruct (c ws r) as [tunnel|e]|]];
      cbv beta iota zeta;
      try destruct (status (guacdToWs (tunnel_reads tunnel) (ws_writes ws)));
      by eexists; eexists. }
  destruct Htrace as (err & rest & Htrace). exists err, rest.
  split; [done|]. unfold websocketReadBufferSize, websocketWriteBufferSize.
  split; [lia|]. split; [lia|]. split.
  - by rewrite lookup_singleton_eq.
  - intros token others Hh. rewrite lookup_singleton_eq.
    unfold Get. by rewrite Hh.
Qed.

(** *** The logger *)

(** A logger at the [Disabled] level lets nothing out. *)
Lemma disabled_logger_silent (gl : Level) (l : Logger) (lvl : Level) :
  level l = Disabled -> log_output gl l lvl = None.
Proof.
  intros Hl. unfold log_output, should. rewrite Hl.
  by destruct lvl.
Qed.

Lemma UpdateContext_globalLogger (p : LoggerPtr)
    (update : list (string * string) -> list (string * string)) (m : Memory) :
  level (globalLogger (UpdateContext p update m)) = level (globalLogger m) /\
  w (globalLogger (UpdateContext p update m)) = w (globalLogger m).
Proof.
  unfold UpdateContext. destruct p as [|n]; simpl; [done|].
  by destruct (heap m !! n).
Qed.

(** The handler changes the loggers in memory by [UpdateContext] only. *)
Lemma ServeHTTP_memory (s : WebsocketServer) (upgrade : Conn + error)
    (r : Request) (m : Memory) :
  served_memory (ServeHTTP s upgrade r m) = m \/
  exists id : string,
    served_memory (ServeHTTP s upgrade r m) =
      UpdateContext (logger s) (Str "connection_id" id) m.
Proof.
  unfold ServeHTTP. destruct upgrade as [ws|err]; [|by left].
  destruct (connect s) as [c|]; [destruct (c r) as [tunnel|e]|
    destruct (connectWs s) as [c|]; [destruct (c ws r) as [tunnel|e]|]];
    cbv beta iota zeta; try (by left);
    right; exists (ConnectionID tunnel);
    by destruct (status (guacdToWs (tunnel_reads tunnel) (ws_writes ws))).
Qed.

Lemma serve_all_level (cs : list connection) :
  forall m : Memory,
    level (globalLogger (serve_all cs m)) = level (globalLogger m) /\
    w (globalLogger (serve_all cs m)) = w (globalLogger m).
Proof.
  induction cs as [|c cs IH]; intros m; [done|].
  cbn [serve_all]. destruct (IH (served_memory
    (ServeHTTP (conn_server c) (conn_upgrade c) (conn_request c) m))) as [-> ->].
  destruct (ServeHTTP_memory (conn_server c) (conn_upgrade c) (conn_request c) m)
    as [->|[id ->]]; [done|].
  apply UpdateContext_globalLogger.
Qed.

(** C7. The logger that [createDefaultLogger] builds is at the [Disabled]
    level and writes to [io.Discard]; it is the package logger at
    initialisation; nothing logged through it at any level reaches a sink;
    and it stays so while the handler serves connections, as long as no
    one calls [SetLogger], [SetLogLevel] or [SetLogLevelConsole]. *)
Theorem default_logger_is_silent :
  GetLevel createDefaultLogger = Disabled /\
  w createDefaultLogger = Discard /\
  (forall h : gmap nat Logger, GetLogger (init_memory h) = createDefaultLogger) /\
  (forall gl lvl : Level, log_output gl createDefaultLogger lvl = None) /\
  (forall (h : gmap nat Logger) (cs : list connection) (gl lvl : Level),
     GetLevel (GetLogger (serve_all cs (init_memory h))) = Disabled /\
     w (GetLogger (serve_all cs (init_memory h))) = Discard /\
     log_output gl (GetLogger (serve_all cs (init_memory h))) lvl = None).
Proof.
  split; [done|]. split; [done|]. split; [done|]. split.
  - intros gl lvl. by apply disabled_logger_silent.
  - intros h cs gl lvl. unfold GetLogger, GetLevel.
    destruct (serve_all_level cs (init_memory h)) as [Hl Hw].
    split; [by rewrite Hl|]. split; [by rewrite Hw|].
    apply disabled_logger_silent. by rewrite Hl.
Qed.

(** C10. Servers built without a logger all hold the address of the
    package's [globalLogger]. A connection served by one of them with a
    successful connect step adds its [connection_id] to the context of
    that one logger, the handler never takes it out again, and the other
    server sees it: after a second connection, served by the other server,
    the context holds both identifiers, in the order the connections were
    served. *)
Theorem ServeHTTP_updates_shared_logger :
  forall (connect1 connect2 : Request -> Tunnel + error) (ws1 ws2 : Conn)
         (r1 r2 : Request) (tunnel1 tunnel2 : Tunnel) (m : Memory),
    connect1 r1 = inl tunnel1 ->
    connect2 r2 = inl tunnel2 ->
    let s1 := NewWebsocketServer (Some connect1) None in
    let s2 := NewWebsocketServer (Some connect2) None in
    let m1 := served_memory (ServeHTTP s1 (inl ws1) r1 m) in
    let m2 := served_memory (ServeHTTP s2 (inl ws2) r2 m1) in
    logger s1 = AddrGlobalLogger /\
    logger s2 = logger s1 /\
    context (globalLogger m1) =
      context (globalLogger m) ++ [("connection_id", ConnectionID tunnel1)] /\
    deref m1 (logger s2) = Some (globalLogger m1) /\
    context (globalLogger m2) =
      context (globalLogger m) ++
        [("connection_id", ConnectionID tunnel1);
         ("connection_id", ConnectionID tunnel2)].
Proof.
  intros connect1 connect2 ws1 ws2 r1 r2 tunnel1 tunnel2 m H1 H2.
  cbv zeta.
  assert (Hserve : forall c ws r tunnel m0,
    c r = inl tunnel ->
    context (globalLogger (served_memory
      (ServeHTTP (NewWebsocketServer (Some c) None) (inl ws) r m0))) =
    context (globalLogger m0) ++ [("connection_id", ConnectionID tunnel)]).
  { intros c ws r tunnel m0 Hc. unfold ServeHTTP, NewWebsocketServer.
    cbn [connect logger]. rewrite Hc. cbv beta iota zeta.
    by destruct (status (guacdToWs (tunnel_reads tunnel) (ws_writes ws))). }
  split; [done|]. split; [done|]. split; [by apply Hserve|]. split; [done|].
  rewrite (Hserve _ _ _ _ _ H2), (Hserve _ _ _ _ _ H1).
  by rewrite <- app_assoc.
Qed.

(** ** Further properties of the pumps *)

(** Scripts in which [Available()] never, or always, answers true. *)
Definition never_available (guacd : list read_some) : Prop :=
  Forall (fun r => match r with
                   | Ins _ available => available = false
                   | ReadSomeErr _ => True
                   end) guacd.

Definition always_available (guacd : list read_some) : Prop :=
  Forall (fun r => match r with
                   | Ins _ available => available = true
                   | ReadSomeErr _ => True
                   end) guacd.

Lemma Equal_eq (a b : bytes) : Equal a b = true <-> a = b.
Proof.
  revert b. induction a as [|x a IH]; intros [|y b]; simpl; try done.
  rewrite andb_true_iff, IH. split.
  - intros [Hxy ->]. f_equal. by apply Byte.byte_dec_bl.
  - intros [= -> ->]. split; [|done]. by apply Byte.byte_dec_lb.
Qed.

Lemma HasPrefix_spec (s prefix : bytes) :
  HasPrefix s prefix = true <-> exists tail, s = prefix ++ tail.
Proof.
  unfold HasPrefix. rewrite andb_true_iff, Equal_eq. split.
  - intros [_ Ht]. exists (drop (length prefix) s).
    rewrite <- Ht at 1. by rewrite take_drop.
  - intros [tail ->]. split.
    + apply Z.leb_le. rewrite Len_app. pose proof (Len_nonneg tail). lia.
    + apply take_app_length.
Qed.

(** X2. A message or an instruction is filtered exactly when its bytes are
    the reserved opcode followed by anything; with an empty reserved opcode
    everything is filtered. *)
Theorem filtered_iff_reserved_prefix :
  (forall d : bytes,
     forwardable d = false <-> exists tail, d = internalOpcodeIns ++ tail) /\
  (forall (messageType : Z) (tail : bytes) (guacd : list (option error))
          (buf : bytes),
     wsToGuacd_body (Msg messageType (internalOpcodeIns ++ tail)) guacd buf =
       ([EvReadMessage (Msg messageType (internalOpcodeIns ++ tail))],
        Continue guacd buf)) /\
  (forall (tail : bytes) (available : bool) (ws : list (option error))
          (buf : bytes),
     guacdToWs_body (Ins (internalOpcodeIns ++ tail) available) ws buf =
       ([EvReadSome (internalOpcodeIns ++ tail)], Continue ws buf)).
Proof.
  assert (Hp : forall tail, HasPrefix (internalOpcodeIns ++ tail) internalOpcodeIns = true).
  { intros tail. apply HasPrefix_spec. by exists tail. }
  split; [|split].
  - intros d. unfold forwardable. rewrite negb_false_iff. apply HasPrefix_spec.
  - intros messageType tail guacd buf. unfold wsToGuacd_body. by rewrite Hp.
  - intros tail available ws buf. unfold guacdToWs_body. by rewrite Hp.
Qed.

Lemma wsToGuacd_loop_returned (ws : list read_message) :
  forall (guacd : list (option error)) (buf : bytes),
    status (wsToGuacd_loop ws guacd buf) = Returned ->
    Exists (fun e => failed e = true) (trace (wsToGuacd_loop ws guacd buf)).
Proof.
  induction ws as [|r ws IH]; intros guacd buf; [done|].
  cbn [wsToGuacd_loop]. rewrite trace_and_then, status_and_then.
  destruct r as [messageType data|err].
  - unfold wsToGuacd_body. destruct (HasPrefix data internalOpcodeIns).
    { cbn [fst snd]. intros H. apply Exists_app. right. by apply IH. }
    destruct guacd as [|[e|] guacd']; cbn [next_result fst snd]; intros H.
    + apply Exists_app. right. by apply IH.
    + apply Exists_app. left. apply Exists_cons_tl. by apply Exists_cons_hd.
    + apply Exists_app. right. by apply IH.
  - intros _. apply Exists_app. left. by apply Exists_cons_hd.
Qed.

Lemma guacdToWs_loop_returned (guacd : list read_some) :
  forall (ws : list (option error)) (buf : bytes),
    status (guacdToWs_loop guacd ws buf) = Returned ->
    Exists (fun e => failed e = true) (trace (guacdToWs_loop guacd ws buf)).
Proof.
  induction guacd as [|r guacd IH]; intros ws buf; [done|].
  cbn [guacdToWs_loop]. rewrite trace_and_then, status_and_then.
  destruct r as [ins available|err].
  - unfold guacdToWs_body, flush. destruct (HasPrefix ins internalOpcodeIns).
    { cbn [fst snd]. intros H. apply Exists_app. right. by apply IH. }
    destruct (negb available || (MaxGuacMessage <=? Len (buf ++ ins))).
    + destruct ws as [|[[|text]|] ws']; cbn [next_result is_ErrCloseSent fst snd];
        intros H; apply Exists_app;
        first [right; by apply IH
              |left; do 2 apply Exists_cons_tl; by apply Exists_cons_hd].
    + cbn [fst snd]. intros H. apply Exists_app. right. by apply IH.
  - intros _. apply Exists_app. left. by apply Exists_cons_hd.
Qed.

Lemma failure_returns (st : Status) (t : list event) :
  stops_at_failure st t -> Exists (fun e => failed e = true) t -> st = Returned.
Proof.
  intros Hs He. apply Exists_exists in He as (e & Hin & He).
  apply list_elem_of_split in Hin as (pre & post & ->).
  by destruct (stops_at_failure_split st _ pre post e Hs eq_refl He).
Qed.

Lemma wsToGuacd_loop_not_panicked (ws : list read_message) :
  forall (guacd : list (option error)) (buf : bytes),
    status (wsToGuacd_loop ws guacd buf) <> Panicked.
Proof.
  induction ws as [|r ws IH]; intros guacd buf; [done|].
  cbn [wsToGuacd_loop]. rewrite status_and_then.
  destruct (snd (wsToGuacd_body r guacd buf)); [apply IH|done].
Qed.

Lemma guacdToWs_loop_not_panicked (guacd : list read_some) :
  forall (ws : list (option error)) (buf : bytes),
    status (guacdToWs_loop guacd ws buf) <> Panicked.
Proof.
  induction guacd as [|r guacd IH]; intros ws buf; [done|].
  cbn [guacdToWs_loop]. rewrite status_and_then.
  destruct (snd (guacdToWs_body r ws buf)); [apply IH|done].
Qed.

(** X1. A pump returns only on an error: a run of [wsToGuacd] or of
    [guacdToWs] has returned exactly when one of its reads or writes failed;
    otherwise the pump is still in its loop, waiting in a read. *)
Theorem pumps_return_only_on_error :
  (forall (ws : list read_message) (guacd : list (option error)),
     (status (wsToGuacd ws guacd) = Returned <->
        Exists (fun e => failed e = true) (trace (wsToGuacd ws guacd))) /\
     (status (wsToGuacd ws guacd) = Blocked <->
        Forall (fun e => failed e = false) (trace (wsToGuacd ws guacd)))) /\
  (forall (guacd : list read_some) (ws : list (option error)),
     (status (guacdToWs guacd ws) = Returned <->
        Exists (fun e => failed e = true) (trace (guacdToWs guacd ws))) /\
     (status (guacdToWs guacd ws) = Blocked <->
        Forall (fun e => failed e = false) (trace (guacdToWs guacd ws)))).
Proof.
  assert (Hgen : forall r : run,
    stops_at_failure (status r) (trace r) ->
    (status r = Returned -> Exists (fun e => failed e = true) (trace r)) ->
    status r <> Panicked ->
    (status r = Returned <-> Exists (fun e => failed e = true) (trace r)) /\
    (status r = Blocked <-> Forall (fun e => failed e = false) (trace r))).
  { intros r Hs Hr Hp.
    assert (Hiff : status r = Returned <->
                   Exists (fun e => failed e = true) (trace r)).
    { split; [exact Hr|]. by apply failure_returns. }
    split; [exact Hiff|]. split.
    - intros Hb. apply Forall_forall. intros e Hin.
      destruct (failed e) eqn:He; [|done].
      assert (status r = Returned); [|congruence].
      apply Hiff. apply Exists_exists. by exists e.
    - intros Hall. destruct (status r) eqn:Hst; [|done|done].
      destruct Hiff as [Hex _]. specialize (Hex eq_refl).
      apply Exists_exists in Hex as (e & Hin & He).
      rewrite Forall_forall in Hall. specialize (Hall e Hin). congruence. }
  split.
  - intros ws guacd. apply Hgen.
    + apply wsToGuacd_loop_stops.
    + apply wsToGuacd_loop_returned.
    + apply wsToGuacd_loop_not_panicked.
  - intros guacd ws. apply Hgen.
    + apply guacdToWs_loop_stops.
    + apply guacdToWs_loop_returned.
    + apply guacdToWs_loop_not_panicked.
Qed.

(** *** Batching *)

Lemma guacdToWs_loop_unbatched (guacd : list read_some) :
  never_available guacd ->
  forall ws : list (option error),
    sent (trace (guacdToWs_loop guacd ws [])) =
      List.filter forwardable (instructions_read (trace (guacdToWs_loop guacd ws []))).
Proof.
  induction guacd as [|r guacd IH]; intros Hn ws; [done|].
  inversion Hn as [|? ? Hr Hn']; subst.
  cbn [guacdToWs_loop]. rewrite trace_and_then.
  destruct r as [ins available|err]; [|done]. subst available.
  unfold guacdToWs_body, flush.
  destruct (HasPrefix ins internalOpcodeIns) eqn:Hf.
  { cbn [fst snd]. rewrite sent_app, instructions_read_app, List.filter_app.
    simpl. unfold forwardable at 1. rewrite Hf. simpl. by apply IH. }
  assert (Hfw : forwardable ins = true) by (unfold forwardable; by rewrite Hf).
  cbn [negb orb app].
  destruct ws as [|[[|text]|] ws']; cbn [next_result is_ErrCloseSent fst snd];
    rewrite ?sent_app, ?instructions_read_app, ?List.filter_app; simpl;
    rewrite Hfw; simpl; try done; f_equal; by apply IH.
Qed.

(** X3. When [Available()] answers false after every instruction, nothing
    is batched: the outbound pump hands each instruction that is not
    filtered to [WriteMessage] as a message of its own, in the order read. *)
Theorem guacdToWs_unbatched :
  forall (guacd : list read_some) (ws : list (option error)),
    never_available guacd ->
    sent (trace (guacdToWs guacd ws)) =
      List.filter forwardable (instructions_read (trace (guacdToWs guacd ws))).
Proof. intros guacd ws Hn. by apply guacdToWs_loop_unbatched. Qed.

Lemma guacdToWs_loop_sent_count (guacd : list read_some) :
  forall (ws : list (option error)) (buf : bytes),
    (length (sent (trace (guacdToWs_loop guacd ws buf))) <=
     length (List.filter forwardable
               (instructions_read (trace (guacdToWs_loop guacd ws buf)))))%nat.
Proof.
  induction guacd as [|r guacd IH]; intros ws buf; [done|].
  cbn [guacdToWs_loop]. rewrite trace_and_then.
  destruct r as [ins available|err]; [|done].
  unfold guacdToWs_body, flush.
  destruct (HasPrefix ins internalOpcodeIns) eqn:Hf.
  { cbn [fst snd]. rewrite sent_app, instructions_read_app, List.filter_app.
    simpl. unfold forwardable at 1. rewrite Hf. simpl. apply IH. }
  assert (Hfw : forwardable ins = true) by (unfold forwardable; by rewrite Hf).
  destruct (negb available || (MaxGuacMessage <=? Len (buf ++ ins))).
  - destruct ws as [|[[|text]|] ws']; cbn [next_result is_ErrCloseSent fst snd];
      rewrite ?sent_app, ?instructions_read_app, ?List.filter_app; simpl;
      rewrite Hfw; simpl; try lia.
    + specialize (IH [] []). lia.
    + specialize (IH ws' []). lia.
  - cbn [fst snd]. rewrite sent_app, instructions_read_app, List.filter_app.
    simpl. rewrite Hfw. simpl. specialize (IH ws (buf ++ ins)). lia.
Qed.

(** X4. Batching only merges: the outbound pump never makes more calls of
    [WriteMessage] than it has read instructions that are not filtered. *)
Theorem guacdToWs_sent_count :
  forall (guacd : list read_some) (ws : list (option error)),
    (length (sent (trace (guacdToWs guacd ws))) <=
     length (List.filter forwardable
               (instructions_read (trace (guacdToWs guacd ws)))))%nat.
Proof. intros guacd ws. apply guacdToWs_loop_sent_count. Qed.

Lemma guacdToWs_loop_blocked_pending (guacd : list read_some) :
  forall (ws : list (option error)) (buf : bytes),
    buf = [] \/ Len buf < MaxGuacMessage ->
    status (guacdToWs_loop guacd ws buf) = Blocked ->
    pending (guacdToWs_loop guacd ws buf) = [] \/
    Len (pending (guacdToWs_loop guacd ws buf)) < MaxGuacMessage.
Proof.
  induction guacd as [|r guacd IH]; intros ws buf Hbuf; [done|].
  cbn [guacdToWs_loop]. rewrite status_and_then, pending_and_then.
  destruct r as [ins available|err]; [|done].
  unfold guacdToWs_body, flush.
  destruct (HasPrefix ins internalOpcodeIns).
  { cbn [fst snd]. by apply IH. }
  destruct (negb available || (MaxGuacMessage <=? Len (buf ++ ins))) eqn:Hc.
  - destruct ws as [|[[|text]|] ws']; cbn [next_result is_ErrCloseSent fst snd];
      try done; apply IH; by left.
  - apply orb_false_iff in Hc as [_ Hl]. apply Z.leb_gt in Hl.
    cbn [fst snd]. apply IH. by right.
Qed.

(** X5. While the outbound pump waits in a read, its accumulation buffer
    is empty or holds fewer than [MaxGuacMessage] bytes. *)
Theorem guacdToWs_blocked_pending_below_cap :
  forall (guacd : list read_some) (ws : list (option error)),
    status (guacdToWs guacd ws) = Blocked ->
    pending (guacdToWs guacd ws) = [] \/
    Len (pending (guacdToWs guacd ws)) < MaxGuacMessage.
Proof.
  intros guacd ws. apply guacdToWs_loop_blocked_pending. by left.
Qed.

(** X6. Bursts compose: when the stream delivers one burst after the other
    (each with an instruction, unfiltered, below the cap in total) and the
    websocket takes every message, the outbound pump sends one message per
    burst, in order, each holding exactly its burst. *)
Theorem guacdToWs_bursts :
  forall (bs : list (list bytes)) (ws : list (option error)),
    Forall small_burst bs ->
    Forall (fun r => r = None) ws ->
    sent (trace (guacdToWs (flat_map burst bs) ws)) = map (@concat byte) bs /\
    delivered (trace (guacdToWs (flat_map burst bs) ws)) = map (@concat byte) bs.
Proof.
  intros bs ws Hbs Hws.
  assert (Hs : sent (trace (guacdToWs (flat_map burst bs) ws)) = map (@concat byte) bs)
    by (by apply guacdToWs_loop_bursts).
  split; [exact Hs|]. rewrite <- Hs. symmetry.
  assert (Hok : forall guacd ws' buf,
    Forall (fun r : option error => r = None) ws' ->
    sent (trace (guacdToWs_loop guacd ws' buf)) =
      delivered (trace (guacdToWs_loop guacd ws' buf))).
  { induction guacd as [|r guacd IH]; intros ws' buf Hws'; [done|].
    cbn [guacdToWs_loop]. rewrite trace_and_then.
    destruct r as [ins available|err]; [|done].
    unfold guacdToWs_body, flush.
    destruct (HasPrefix ins internalOpcodeIns).
    { cbn [fst snd]. rewrite sent_app, delivered_app. simpl. by apply IH. }
    destruct (negb available || (MaxGuacMessage <=? Len (buf ++ ins))).
    - destruct ws' as [|r ws'']; cbn [next_result fst snd].
      + rewrite sent_app, delivered_app. simpl. f_equal. by apply IH.
      + inversion Hws' as [|? ? -> Hws'']; subst. cbn [fst snd].
        rewrite sent_app, delivered_app. simpl. f_equal. by apply IH.
    - cbn [fst snd]. rewrite sent_app, delivered_app. simpl. by apply IH. }
  by apply Hok.
Qed.

Lemma guacdToWs_loop_saturated (guacd : list read_some) :
  always_available guacd ->
  forall (ws : list (option error)) (buf : bytes),
    Forall (fun d => MaxGuacMessage <= Len d)
           (sent (trace (guacdToWs_loop guacd ws buf))).
Proof.
  induction guacd as [|r guacd IH]; intros Ha ws buf; [constructor|].
  inversion Ha as [|? ? Hr Ha']; subst.
  cbn [guacdToWs_loop]. rewrite trace_and_then.
  destruct r as [ins available|err]; [|constructor]. subst available.
  destruct (HasPrefix ins internalOpcodeIns) eqn:Hf.
  { unfold guacdToWs_body. rewrite Hf. cbn [fst snd]. rewrite sent_app.
    simpl. by apply IH. }
  rewrite (guacdToWs_body_append _ _ _ _ Hf). cbn [negb orb].
  destruct (MaxGuacMessage <=? Len (buf ++ ins)) eqn:Hc.
  - apply Z.leb_le in Hc. cbn [fst snd].
    change (EvReadSome ins :: EvAvailable true :: fst (flush ws (buf ++ ins)))
      with ([EvReadSome ins; EvAvailable true] ++ fst (flush ws (buf ++ ins))).
    rewrite !sent_app, flush_sent, flush_step. simpl.
    constructor; [done|].
    destruct (fst (next_result ws)); [constructor|]. by apply IH.
  - cbn [fst snd]. rewrite sent_app. simpl. by apply IH.
Qed.

(** X7. While the stream always has another instruction ready, the
    outbound pump sends nothing short of the cap: every message it hands to
    [WriteMessage] holds at least [MaxGuacMessage] bytes. *)
Theorem guacdToWs_saturated :
  forall (guacd : list read_some) (ws : list (option error)),
    always_available guacd ->
    Forall (fun d => MaxGuacMessage <= Len d) (sent (trace (guacdToWs guacd ws))).
Proof. intros guacd ws Ha. by apply guacdToWs_loop_saturated. Qed.

(** ** Further properties of the handler and of the logger *)

(** The calls of a trace that are not log calls. *)
Definition calls (t : list event) : list event :=
  List.filter (fun e => negb (is_log e)) t.


Lemma calls_app (a b : list event) : calls (a ++ b) = calls a ++ calls b.
Proof. apply List.filter_app. Qed.

Lemma deref_UpdateContext_ne (p q : LoggerPtr)
    (update : list (string * string) -> list (string * string)) (m : Memory) :
  q <> p -> deref (UpdateContext p update m) q = deref m q.
Proof.
  intros Hne. unfold UpdateContext.
  destruct (deref m p) as [l|] eqn:Hl; [|done].
  destruct p as [|n], q as [|n']; simpl; try done.
  apply lookup_insert_ne. congruence.
Qed.

Lemma deref_UpdateContext_eq (p : LoggerPtr)
    (update : list (string * string) -> list (string * string)) (m : Memory)
    (l : Logger) :
  deref m p = Some l ->
  deref (UpdateContext p update m) p =
    Some (mkLogger (w l) (level l) (timestamp l) (update (context l))).
Proof.
  intros Hl. unfold UpdateContext. rewrite Hl.
  destruct p as [|n]; simpl; [done|]. apply lookup_insert_eq.
Qed.

(** X8. The handler changes no logger but the one its server points to,
    and of that one it changes the context only, by at most one
    [connection_id] field added at the end; when the upgrade fails it changes
    nothing. *)
Theorem ServeHTTP_frame :
  forall (s : WebsocketServer) (upgrade : Conn + error) (r : Request)
         (m : Memory),
    (forall p : LoggerPtr,
       p <> logger s ->
       deref (served_memory (ServeHTTP s upgrade r m)) p = deref m p) /\
    (forall l : Logger,
       deref m (logger s) = Some l ->
       exists l' : Logger,
         deref (served_memory (ServeHTTP s upgrade r m)) (logger s) = Some l' /\
         level l' = level l /\ w l' = w l /\ timestamp l' = timestamp l /\
         (context l' = context l \/
          exists id : string, context l' = context l ++ [("connection_id", id)])) /\
    (forall err : error,
       upgrade = inr err -> served_memory (ServeHTTP s upgrade r m) = m).
Proof.
  intros s upgrade r m. split; [|split].
  - intros p Hne.
    destruct (ServeHTTP_memory s upgrade r m) as [->|[id ->]]; [done|].
    by apply deref_UpdateContext_ne.
  - intros l Hl.
    destruct (ServeHTTP_memory s upgrade r m) as [->|[id ->]].
    + exists l. repeat split; try done. by left.
    + eexists. split; [by apply deref_UpdateContext_eq|].
      simpl. repeat split; try done. right. by exists id.
  - by intros err ->.
Qed.

(** X9. When the connect step gave a tunnel and the outbound pump has
    returned, the handler ends with these calls, in this order: the reader is
    released, then the writer, then [OnDisconnectWs] and [OnDisconnect] (each
    if set, the reverse of the order of the connect callbacks), then the
    tunnel is closed, and last the websocket. *)
Theorem ServeHTTP_teardown_order :
  forall (s : WebsocketServer) (ws : Conn) (r : Request) (m : Memory)
         (tunnel : Tunnel),
    connect_step s ws r = Some (inl tunnel) ->
    status (guacdToWs (tunnel_reads tunnel) (ws_writes ws)) = Returned ->
    exists before after : list event,
      served_trace (ServeHTTP s (inl ws) r m) =
        before ++ EvGo_wsToGuacd ::
        trace (guacdToWs (tunnel_reads tunnel) (ws_writes ws)) ++ after /\
      calls after =
        [EvReleaseReader; EvReleaseWriter] ++
        call_if_set (OnDisconnectWs s)
          (fun f => EvOnDisconnectWs f (ConnectionID tunnel)) ++
        call_if_set (OnDisconnect s)
          (fun f => EvOnDisconnect f (ConnectionID tunnel)) ++
        [EvTunnelClose (tunnel_close tunnel); EvWsClose (ws_close ws)].
Proof.
  intros s ws r m tunnel Hc Hst.
  unfold connect_step in Hc. unfold ServeHTTP.
  destruct (connect s) as [c|]; [|destruct (connectWs s) as [c|]; [|done]];
    injection Hc as Hc; rewrite Hc; cbv beta iota zeta; rewrite Hst;
    cbn [served_trace];
    eexists; eexists; (split; [apply split_at_go|]);
    unfold calls; destruct (OnDisconnect s), (OnDisconnectWs s); simpl;
    destruct (tunnel_close tunnel), (ws_close ws); reflexivity.
Qed.





(** *** The package logger after [SetLogLevel] and [SetLogger] *)

(** X11. After [SetLogLevel(lvl)] the package logger is at level [lvl] and
    an event reaches [os.Stderr] exactly when its level is not [Disabled]
    and is below neither [lvl] nor zerolog's global level; otherwise it goes
    nowhere. [SetLogLevelConsole(lvl)] does the same through the console
    writer. Neither touches the loggers of the application. *)
Theorem SetLogLevel_output :
  forall (lvl gl l : Level) (m : Memory),
    (GetLevel (GetLogger (SetLogLevel lvl m)) = lvl /\
     GetLevel (GetLogger (SetLogLevelConsole lvl m)) = lvl) /\
    (log_output gl (GetLogger (SetLogLevel lvl m)) l = Some Stderr <->
       l <> Disabled /\ level_num lvl <= level_num l /\
       level_num gl <= level_num l) /\
    (log_output gl (GetLogger (SetLogLevel lvl m)) l = Some Stderr \/
     log_output gl (GetLogger (SetLogLevel lvl m)) l = None) /\
    (log_output gl (GetLogger (SetLogLevelConsole lvl m)) l = Some ConsoleStderr <->
       l <> Disabled /\ level_num lvl <= level_num l /\
       level_num gl <= level_num l) /\
    (log_output gl (GetLogger (SetLogLevelConsole lvl m)) l = Some ConsoleStderr \/
     log_output gl (GetLogger (SetLogLevelConsole lvl m)) l = None) /\
    (heap (SetLogLevel lvl m) = heap m /\
     heap (SetLogLevelConsole lvl m) = heap m).
Proof.
  intros lvl gl l m.
  assert (Hout : forall s : Sink, s <> Discard ->
    (log_output gl (WithLevel (WithTimestamp (New s)) lvl) l = Some s <->
       l <> Disabled /\ level_num lvl <= level_num l /\
       level_num gl <= level_num l) /\
    (log_output gl (WithLevel (WithTimestamp (New s)) lvl) l = Some s \/
     log_output gl (WithLevel (WithTimestamp (New s)) lvl) l = None)).
  { intros s Hs. unfold log_output, should. cbn [WithLevel WithTimestamp New level w].
    destruct (level_num lvl <=? level_num l) eqn:H1;
      destruct (level_num gl <=? level_num l) eqn:H2;
      rewrite ?Z.leb_le, ?Z.leb_gt in H1, H2;
      cbn [andb]; (split; [|destruct l, s; by auto]);
      destruct l; (split; [intros H|intros (Hd & Hl & Hg)]);
      try done; try lia; try (by destruct s). }
  destruct (Hout Stderr ltac:(done)) as [H1 H2].
  destruct (Hout ConsoleStderr ltac:(done)) as [H3 H4].
  done.
Qed.

(** X12. A server built without a logger logs through whatever logger
    [SetLogger] installs, also when it is installed after the server was
    built: a connection it serves with a successful connect step adds its
    [connection_id] to the context of that logger and leaves its level, its
    writer and the loggers of the application as they are. *)
Theorem SetLogger_reaches_default_servers :
  forall (c : Request -> Tunnel + error) (ws : Conn) (r : Request)
         (tunnel : Tunnel) (l : Logger) (m : Memory),
    c r = inl tunnel ->
    let s := NewWebsocketServer (Some c) None in
    let m' := served_memory (ServeHTTP s (inl ws) r (SetLogger l m)) in
    deref (SetLogger l m) (logger s) = Some l /\
    GetLogger m' =
      mkLogger (w l) (level l) (timestamp l)
        (context l ++ [("connection_id", ConnectionID tunnel)]) /\
    heap m' = heap m.
Proof.
  intros c ws r tunnel l m Hc. cbv zeta. split; [done|].
  unfold ServeHTTP, NewWebsocketServer. cbn [connect logger]. rewrite Hc.
  cbv beta iota zeta.
  by destruct (status (guacdToWs (tunnel_reads tunnel) (ws_writes ws))).
Qed.



(** *** Nothing is lost while nothing fails *)

(** The payloads of the messages, and the instructions, a script holds. *)
Definition payloads (ws : list read_message) : list bytes :=
  omap (fun r => match r with Msg _ d => Some d | ReadMessageErr _ => None end) ws.

Definition instructions (guacd : list read_some) : list bytes :=
  omap (fun r => match r with Ins d _ => Some d | ReadSomeErr _ => None end) guacd.

Definition no_read_error (ws : list read_message) : Prop :=
  Forall (fun r => match r with Msg _ _ => True | ReadMessageErr _ => False end) ws.

Definition no_read_some_error (guacd : list read_some) : Prop :=
  Forall (fun r => match r with Ins _ _ => True | ReadSomeErr _ => False end) guacd.

Lemma filter_prefix (f : bytes -> bool) (a b : list bytes) :
  a `prefix_of` b -> List.filter f a `prefix_of` List.filter f b.
Proof. intros [k ->]. rewrite List.filter_app. by apply prefix_app_r. Qed.

Lemma wsToGuacd_loop_reads_prefix (ws : list read_message) :
  forall (guacd : list (option error)) (buf : bytes),
    messages_read (trace (wsToGuacd_loop ws guacd buf)) `prefix_of` payloads ws.
Proof.
  induction ws as [|r ws IH]; intros guacd buf; [done|].
  cbn [wsToGuacd_loop]. rewrite trace_and_then.
  destruct r as [messageType data|err]; [|by apply prefix_nil].
  unfold wsToGuacd_body. destruct (HasPrefix data internalOpcodeIns).
  { cbn [fst snd]. rewrite messages_read_app. simpl. apply prefix_cons, IH. }
  destruct guacd as [|[e|] guacd']; cbn [next_result fst snd];
    rewrite ?messages_read_app; simpl;
    first [apply prefix_cons, IH|apply prefix_cons, prefix_nil].
Qed.

Lemma wsToGuacd_loop_reads_all (ws : list read_message) :
  no_read_error ws ->
  forall (guacd : list (option error)) (buf : bytes),
    Forall (fun r => r = None) guacd ->
    messages_read (trace (wsToGuacd_loop ws guacd buf)) = payloads ws /\
    status (wsToGuacd_loop ws guacd buf) = Blocked.
Proof.
  induction ws as [|r ws IH]; intros Hn guacd buf Hg; [done|].
  inversion Hn as [|? ? Hr Hn']; subst.
  cbn [wsToGuacd_loop]. rewrite trace_and_then, status_and_then.
  destruct r as [messageType data|err]; [|done].
  unfold wsToGuacd_body. destruct (HasPrefix data internalOpcodeIns).
  { cbn [fst snd]. rewrite messages_read_app. simpl.
    destruct (IH Hn' guacd buf Hg) as [-> ->]. done. }
  destruct guacd as [|e guacd']; cbn [next_result fst snd].
  - rewrite messages_read_app. simpl. destruct (IH Hn' [] buf Hg) as [-> ->]. done.
  - inversion Hg as [|? ? -> Hg']; subst. cbn [fst snd].
    rewrite messages_read_app. simpl. destruct (IH Hn' guacd' buf Hg') as [-> ->]. done.
Qed.

(** X14. Whatever happens, what the inbound pump hands to the tunnel
    writer is a prefix of the unfiltered messages the websocket has for
    it; and as long as no read and no write fails, it is all of them, and
    the pump goes on reading. *)
Theorem wsToGuacd_forwards_all :
  (forall (ws : list read_message) (guacd : list (option error)),
     written (trace (wsToGuacd ws guacd)) `prefix_of`
       List.filter forwardable (payloads ws)) /\
  (forall (ws : list read_message) (guacd : list (option error)),
     no_read_error ws ->
     Forall (fun r => r = None) guacd ->
     written (trace (wsToGuacd ws guacd)) = List.filter forwardable (payloads ws) /\
     status (wsToGuacd ws guacd) = Blocked).
Proof.
  split.
  - intros ws guacd. unfold wsToGuacd. rewrite wsToGuacd_loop_written.
    apply filter_prefix, wsToGuacd_loop_reads_prefix.
  - intros ws guacd Hn Hg. unfold wsToGuacd. rewrite wsToGuacd_loop_written.
    by destruct (wsToGuacd_loop_reads_all ws Hn guacd [] Hg) as [-> ->].
Qed.

Lemma guacdToWs_loop_reads_all (guacd : list read_some) :
  no_read_some_error guacd ->
  forall (ws : list (option error)) (buf : bytes),
    Forall (fun r => r = None) ws ->
    instructions_read (trace (guacdToWs_loop guacd ws buf)) = instructions guacd /\
    status (guacdToWs_loop guacd ws buf) = Blocked.
Proof.
  induction guacd as [|r guacd IH]; intros Hn ws buf Hws; [done|].
  inversion Hn as [|? ? Hr Hn']; subst.
  cbn [guacdToWs_loop]. rewrite trace_and_then, status_and_then.
  destruct r as [ins available|err]; [|done].
  unfold guacdToWs_body, flush. destruct (HasPrefix ins internalOpcodeIns).
  { cbn [fst snd]. rewrite instructions_read_app. simpl.
    destruct (IH Hn' ws buf Hws) as [-> ->]. done. }
  destruct (negb available || (MaxGuacMessage <=? Len (buf ++ ins))).
  - destruct ws as [|e ws']; cbn [next_result fst snd].
    + rewrite instructions_read_app. simpl.
      destruct (IH Hn' [] [] Hws) as [-> ->]. done.
    + inversion Hws as [|? ? -> Hws']; subst. cbn [fst snd].
      rewrite instructions_read_app. simpl.
      destruct (IH Hn' ws' [] Hws') as [-> ->]. done.
  - cbn [fst snd]. rewrite instructions_read_app. simpl.
    destruct (IH Hn' ws (buf ++ ins) Hws) as [-> ->]. done.
Qed.

Lemma guacdToWs_loop_drained (guacd : list read_some) (ins : bytes) :
  no_read_some_error guacd ->
  HasPrefix ins internalOpcodeIns = false ->
  forall (ws : list (option error)) (buf : bytes),
    Forall (fun r => r = None) ws ->
    pending (guacdToWs_loop (guacd ++ [Ins ins false]) ws buf) = [].
Proof.
  intros Hn Hf. induction guacd as [|r guacd IH]; intros ws buf Hws.
  - cbn [app guacdToWs_loop]. rewrite pending_and_then.
    rewrite (guacdToWs_body_append _ _ _ _ Hf). cbn [negb orb snd].
    rewrite flush_step.
    destruct ws as [|e ws']; [done|].
    inversion Hws as [|? ? -> Hws']; subst. done.
  - inversion Hn as [|? ? Hr Hn']; subst.
    cbn [app guacdToWs_loop]. rewrite pending_and_then.
    destruct r as [ins' available|err]; [|done].
    unfold guacdToWs_body, flush. destruct (HasPrefix ins' internalOpcodeIns).
    { cbn [snd]. by apply IH. }
    destruct (negb available || (MaxGuacMessage <=? Len (buf ++ ins'))).
    + destruct ws as [|e ws']; cbn [next_result fst snd]; [by apply IH|].
      inversion Hws as [|? ? -> Hws']; subst. cbn [snd]. by apply IH.
    + cbn [snd]. by apply IH.
Qed.

(** X15. When the stream has given its instructions without a read error,
    the last of them unfiltered and with nothing more available after it,
    and the websocket took every message, the outbound pump has nothing left
    in its buffer: the messages it delivered are, joined, exactly the
    unfiltered instructions of the stream, and it waits for the next one. *)
Theorem guacdToWs_drained :
  forall (guacd : list read_some) (ins : bytes) (ws : list (option error)),
    no_read_some_error guacd ->
    HasPrefix ins internalOpcodeIns = false ->
    Forall (fun r => r = None) ws ->
    let r := guacdToWs (guacd ++ [Ins ins false]) ws in
    pending r = [] /\
    status r = Blocked /\
    concat (delivered (trace r)) =
      concat (List.filter forwardable (instructions (guacd ++ [Ins ins false]))).
Proof.
  intros guacd ins ws Hn Hf Hws. cbv zeta. unfold guacdToWs.
  assert (Hn' : no_read_some_error (guacd ++ [Ins ins false])).
  { apply Forall_app. split; [done|]. by repeat constructor. }
  destruct (guacdToWs_loop_reads_all _ Hn' ws [] Hws) as [Hr Hst].
  pose proof (guacdToWs_loop_drained guacd ins Hn Hf ws [] Hws) as Hp.
  pose proof (guacdToWs_loop_delivered (guacd ++ [Ins ins false]) ws []) as Hd.
  cbv zeta in Hd. rewrite Hp, Hr, app_nil_r in Hd. simpl in Hd.
  done.
Qed.

End Bridge.

(** ** Concrete runs *)

(** The runs below take a cap of 8192 bytes and, as reserved opcode, the
    empty opcode, which is framed as [0.]. *)
Definition cap : Z := 8192.
Definition reserved : bytes := String.list_byte_of_string "0.".

Definition sync : bytes := String.list_byte_of_string "4.sync,8.12345678;".
Definition nop : bytes := String.list_byte_of_string "3.nop;".
Definition ping : bytes := String.list_byte_of_string "0.,4.ping;".

(** A [blob] instruction that carries [n] bytes of data. *)
Definition blob (n : Z) (size : string) : bytes :=
  String.list_byte_of_string "4.blob,1.0," ++ String.list_byte_of_string size ++
  String.list_byte_of_string "." ++ replicate (Z.to_nat n) "A"%byte ++
  String.list_byte_of_string ";".

(** 5017 bytes, and 8192 bytes: as long as the cap. *)
Definition blob5000 : bytes := blob 5000 "5000".
Definition blob8175 : bytes := blob 8175 "8175".

Definition eof : error := ErrOther "EOF".

(** A tunnel whose reader gives one instruction and then fails, a websocket
    whose reads fail at once, and a server with the two current callbacks
    set. *)
Definition tunnelA : Tunnel :=
  mkTunnel "$a1" [Ins sync false; ReadSomeErr eof] [] None.
Definition tunnelB : Tunnel :=
  mkTunnel "$b2" [ReadSomeErr eof] [] None.
Definition browser : Conn := mkConn [ReadMessageErr eof] [] None.
Definition request : Request :=
  mkRequest {[ "Sec-Websocket-Protocol" := ["guacamole"] ]} "10.0.0.7:50000".
Definition serverA : WebsocketServer :=
  mkServer (Some (fun _ => inl tunnelA)) None None None (Some 1%nat) (Some 2%nat)
    AddrGlobalLogger.

Lemma guacdToWs_flush_policy_witness :
  (HasPrefix sync reserved = false /\
   Len (nop ++ sync) < cap /\
   sent (fst (guacdToWs_body cap reserved (Ins sync false) [] nop)) = [nop ++ sync] /\
   sent (fst (guacdToWs_body cap reserved (Ins sync true) [] nop)) = []) /\
  ([sync; nop; sync] <> [] /\
   Forall (fun ins => HasPrefix ins reserved = false) [sync; nop; sync] /\
   Len (concat [sync; nop; sync]) < cap /\
   sent (trace (guacdToWs cap reserved (burst [sync; nop; sync]) [])) =
     [sync ++ nop ++ sync]) /\
  (HasPrefix blob8175 reserved = false /\
   cap <= Len blob8175 /\
   sent (fst (guacdToWs_body cap reserved (Ins blob8175 true) [] [])) = [blob8175]) /\
  (snd (guacdToWs_body cap reserved (Ins sync false) [None] nop) = Continue [] [] /\
   snd (guacdToWs_body cap reserved (Ins sync false) [Some eof] nop) =
     Return (nop ++ sync)) /\
  (sent (trace (guacdToWs cap reserved
                  (burst [sync; nop; sync] ++ [Ins nop false]) [None; None])) =
     [sync ++ nop ++ sync; nop]) /\
  (Forall (small_burst cap reserved) [[sync; nop]; [nop]] /\
   sent (trace (guacdToWs cap reserved (flat_map burst [[sync; nop]; [nop]])
                  [None; None])) = [sync ++ nop; nop]).
Proof.
  destruct (guacdToWs_flush_policy cap reserved)
    as (Hturn & Hburst & Hbig & Hreset & Hthen & Hbursts).
  assert (Hsync : HasPrefix sync reserved = false) by reflexivity.
  assert (Hnop : HasPrefix nop reserved = false) by reflexivity.
  assert (Hblob : HasPrefix blob8175 reserved = false) by (vm_compute; reflexivity).
  assert (Hall : Forall (fun ins => HasPrefix ins reserved = false) [sync; nop; sync])
    by (repeat constructor; assumption).
  assert (Hlen : Len (concat [sync; nop; sync]) < cap) by (vm_compute; reflexivity).
  split; [|split; [|split; [|split; [|split]]]].
  - split; [exact Hsync|]. split; [vm_compute; reflexivity|]. split.
    + apply (Hturn sync false [] nop Hsync). by left.
    + apply (Hturn sync true [] nop Hsync).
      intros [H|H]; [discriminate|]. vm_compute in H. by apply H.
  - split; [discriminate|]. split; [exact Hall|]. split; [exact Hlen|].
    rewrite (Hburst [sync; nop; sync] [] ltac:(discriminate) Hall Hlen).
    vm_compute. reflexivity.
  - assert (Hge : cap <= Len blob8175) by (vm_compute; discriminate).
    split; [exact Hblob|]. split; [exact Hge|].
    apply (Hbig blob8175 true [] [] Hblob Hge).
  - split.
    + exact (Hreset sync false [None] nop Hsync (or_introl eq_refl)).
    + exact (Hreset sync false [Some eof] nop Hsync (or_introl eq_refl)).
  - rewrite (Hthen [sync; nop; sync] [Ins nop false] [None; None]
               ltac:(discriminate) Hall Hlen).
    vm_compute. reflexivity.
  - assert (Hb : Forall (small_burst cap reserved) [[sync; nop]; [nop]]).
    { repeat constructor; try discriminate; vm_compute; reflexivity. }
    split; [exact Hb|].
    rewrite (Hbursts [[sync; nop]; [nop]] [None; None] Hb
               ltac:(by repeat constructor)).
    reflexivity.
Defined.

Example Len_blob5000 : Len blob5000 = 5017.
Proof. vm_compute. reflexivity. Qed.

Example Len_blob8175 : Len blob8175 = cap.
Proof. vm_compute. reflexivity. Qed.

(** A filtered instruction read while [sync] waits in the buffer: nothing
    is sent, and the pump waits in the next read with [sync] unsent. *)
Example guacdToWs_stalls_behind_filtered :
  guacdToWs cap reserved [Ins sync true; Ins ping false] [] =
    mkRun [EvReadSome sync; EvAvailable true; EvReadSome ping] sync Blocked.
Proof. vm_compute. reflexivity. Qed.

(** An instruction that is not filtered is read while another is said to be
    available; the next read fails; the pump returns and the instruction has
    not been handed to the websocket. *)
Lemma guacdToWs_unflushed_instruction_lost :
  HasPrefix sync reserved = false /\
  instructions_read (trace (guacdToWs cap reserved [Ins sync true; ReadSomeErr eof] []))
    = [sync] /\
  sent (trace (guacdToWs cap reserved [Ins sync true; ReadSomeErr eof] [])) = [] /\
  pending (guacdToWs cap reserved [Ins sync true; ReadSomeErr eof] []) = sync /\
  status (guacdToWs cap reserved [Ins sync true; ReadSomeErr eof] []) = Returned.
Proof. repeat split; vm_compute; reflexivity. Qed.

(** Two instructions of 5017 bytes, the second already buffered when the
    first is read: they go out as one message of 10034 bytes. *)
Lemma guacdToWs_message_above_cap :
  Len blob5000 <= cap /\
  sent (trace (guacdToWs cap reserved [Ins blob5000 true; Ins blob5000 false] [])) =
    [blob5000 ++ blob5000] /\
  Len (blob5000 ++ blob5000) = 10034 /\
  cap < Len (blob5000 ++ blob5000).
Proof.
  split; [vm_compute; discriminate|].
  split; [vm_compute; reflexivity|].
  split; vm_compute; reflexivity.
Qed.

Lemma guacdToWs_message_below_write_buffer_witness :
  0 < cap /\
  instructions_within cap [Ins blob5000 true; Ins blob5000 false] /\
  Forall (fun d => Len d < websocketWriteBufferSize cap)
    (sent (trace (guacdToWs cap reserved [Ins blob5000 true; Ins blob5000 false] []))).
Proof.
  assert (Hpos : 0 < cap) by reflexivity.
  assert (Hw : instructions_within cap [Ins blob5000 true; Ins blob5000 false])
    by (repeat constructor; vm_compute; discriminate).
  split; [exact Hpos|]. split; [exact Hw|].
  exact (guacdToWs_message_below_write_buffer cap reserved _ [] Hpos Hw).
Defined.

Lemma guacdToWs_filtered_skips_flush_witness :
  HasPrefix ping reserved = true /\
  guacdToWs_body cap reserved (Ins ping false) [] sync =
    ([EvReadSome ping], Continue [] sync) /\
  guacdToWs_loop cap reserved [Ins ping false] [] sync =
    mkRun [EvReadSome ping] sync Blocked.
Proof.
  assert (Hf : HasPrefix ping reserved = true) by reflexivity.
  destruct (guacdToWs_filtered_skips_flush cap reserved ping false [] [] sync Hf)
    as (Hbody & _ & Hloop & _).
  split; [exact Hf|]. split; [exact Hbody|exact Hloop].
Defined.

Lemma pumps_stop_at_first_error_witness :
  (trace (wsToGuacd reserved [Msg 1 sync; ReadMessageErr eof; Msg 1 nop] []) =
     [EvReadMessage (Msg 1 sync); EvWrite sync None] ++
     EvReadMessage (ReadMessageErr eof) ::
     [EvLog TraceLevel (Some eof) [] "Error reading message from ws";
      EvLog WarnLevel (Some eof) []
        "[Browser -> guacd] Browser disconnected or error reading from WebSocket"] /\
   status (wsToGuacd reserved [Msg 1 sync; ReadMessageErr eof; Msg 1 nop] []) =
     Returned) /\
  (ReadMessageErr eof ∈ [Msg 1 sync; ReadMessageErr eof; Msg 1 nop] /\
   status (wsToGuacd reserved [Msg 1 sync; ReadMessageErr eof; Msg 1 nop] []) =
     Returned) /\
  (trace (guacdToWs cap reserved [Ins sync false; Ins nop false] [Some ErrCloseSent]) =
     [EvReadSome sync; EvAvailable false] ++
     EvWriteMessage 1 sync (Some ErrCloseSent) ::
     [EvLog DebugLevel None []
        "[guacd -> Browser] websocket already closed (clean close)"] /\
   epilogue (EvWriteMessage 1 sync (Some ErrCloseSent))
     [EvLog DebugLevel None []
        "[guacd -> Browser] websocket already closed (clean close)"] /\
   status (guacdToWs cap reserved [Ins sync false; Ins nop false] [Some ErrCloseSent]) =
     Returned) /\
  (ReadSomeErr eof ∈ [Ins sync true; ReadSomeErr eof] /\
   status (guacdToWs cap reserved [Ins sync true; ReadSomeErr eof] []) = Returned).
Proof.
  destruct (pumps_stop_at_first_error cap reserved) as (Hin & Hinr & Hout & Houtr).
  assert (Ht1 : trace (wsToGuacd reserved [Msg 1 sync; ReadMessageErr eof; Msg 1 nop] []) =
     [EvReadMessage (Msg 1 sync); EvWrite sync None] ++
     EvReadMessage (ReadMessageErr eof) ::
     [EvLog TraceLevel (Some eof) [] "Error reading message from ws";
      EvLog WarnLevel (Some eof) []
        "[Browser -> guacd] Browser disconnected or error reading from WebSocket"])
    by reflexivity.
  assert (Hm1 : ReadMessageErr eof ∈ [Msg 1 sync; ReadMessageErr eof; Msg 1 nop])
    by (apply elem_of_cons; right; apply elem_of_cons; by left).
  assert (Ht2 : trace (guacdToWs cap reserved [Ins sync false; Ins nop false]
                         [Some ErrCloseSent]) =
     [EvReadSome sync; EvAvailable false] ++
     EvWriteMessage 1 sync (Some ErrCloseSent) ::
     [EvLog DebugLevel None []
        "[guacd -> Browser] websocket already closed (clean close)"])
    by reflexivity.
  assert (Hm2 : ReadSomeErr eof ∈ [Ins sync true; ReadSomeErr eof])
    by (apply elem_of_cons; right; apply elem_of_cons; by left).
  split; [|split; [|split]].
  - split; [exact Ht1|]. exact (proj1 (Hin _ _ _ _ _ Ht1 eq_refl)).
  - split; [exact Hm1|]. exact (Hinr _ [] _ Hm1).
  - split; [exact Ht2|].
    destruct (Hout _ _ _ _ _ Ht2 eq_refl) as [Hst Hep].
    split; [exact Hep|exact Hst].
  - split; [exact Hm2|]. exact (Houtr _ [] _ Hm2).
Defined.

Lemma ServeHTTP_lifecycle_witness :
  connect_step serverA browser request = Some (inl tunnelA) /\
  status (guacdToWs cap reserved (tunnel_reads tunnelA) (ws_writes browser)) = Returned /\
  exists before after : list event,
    served_trace (ServeHTTP cap reserved serverA (inl browser) request (init_memory ∅)) =
      before ++ EvGo_wsToGuacd ::
      trace (guacdToWs cap reserved (tunnel_reads tunnelA) (ws_writes browser)) ++ after /\
    callbacks before = [EvOnConnectWs 1%nat "$a1"] /\
    served_status (ServeHTTP cap reserved serverA (inl browser) request (init_memory ∅)) =
      Returned /\
    callbacks after = [EvOnDisconnectWs 2%nat "$a1"] /\
    teardown after = [EvReleaseReader; EvReleaseWriter; EvTunnelClose None].
Proof.
  assert (Hc : connect_step serverA browser request = Some (inl tunnelA))
    by reflexivity.
  assert (Hst : status (guacdToWs cap reserved (tunnel_reads tunnelA)
                          (ws_writes browser)) = Returned) by reflexivity.
  split; [exact Hc|]. split; [exact Hst|].
  destruct (proj1 (ServeHTTP_lifecycle cap reserved) serverA browser request
              (init_memory ∅) tunnelA Hc)
    as (before & after & Ht & Hb & _ & _ & _ & _ & Hexit).
  destruct (Hexit Hst) as (Hs & Ha & Htd).
  exists before, after.
  split; [exact Ht|]. split; [exact Hb|]. split; [exact Hs|].
  split; [exact Ha|exact Htd].
Defined.

Lemma ServeHTTP_upgrade_witness :
  Header request !! "Sec-Websocket-Protocol" = Some ["guacamole"] /\
  exists (ReadBufferSize WriteBufferSize : Z)
         (responseHeader : gmap string (list string))
         (err : option error) (rest : list event),
    served_trace (ServeHTTP cap reserved serverA (inl browser) request (init_memory ∅)) =
      EvUpgrade ReadBufferSize WriteBufferSize responseHeader err :: rest /\
    cap <= ReadBufferSize /\
    2 * cap <= WriteBufferSize /\
    responseHeader !! "Sec-Websocket-Protocol" = Some ["guacamole"].
Proof.
  assert (Hh : Header request !! "Sec-Websocket-Protocol" = Some ["guacamole"])
    by apply lookup_singleton_eq.
  split; [exact Hh|].
  destruct (ServeHTTP_upgrade cap reserved serverA (inl browser) request (init_memory ∅))
    as (rb & wb & h & err & rest & Ht & Hr & Hw & _ & Htok).
  exists rb, wb, h, err, rest.
  split; [exact Ht|]. split; [exact Hr|]. split; [exact Hw|].
  exact (Htok "guacamole" [] Hh).
Defined.

Lemma ServeHTTP_updates_shared_logger_witness :
  context (GetLogger (init_memory ∅)) = [] /\
  context (GetLogger
    (served_memory
       (ServeHTTP cap reserved (NewWebsocketServer (Some (fun _ => inl tunnelB)) None)
          (inl browser) request
          (served_memory
             (ServeHTTP cap reserved (NewWebsocketServer (Some (fun _ => inl tunnelA)) None)
                (inl browser) request (init_memory ∅)))))) =
    [("connection_id", "$a1"); ("connection_id", "$b2")].
Proof.
  split; [reflexivity|].
  destruct (ServeHTTP_updates_shared_logger cap reserved
              (fun _ => inl tunnelA) (fun _ => inl tunnelB) browser browser
              request request tunnelA tunnelB (init_memory ∅) eq_refl eq_refl)
    as (_ & _ & _ & _ & H).
  exact H.
Defined.

(** ** Concrete runs for the further properties *)

Lemma guacdToWs_unbatched_witness :
  never_available [Ins sync false; Ins ping false; Ins nop false] /\
  sent (trace (guacdToWs cap reserved
                 [Ins sync false; Ins ping false; Ins nop false] [])) = [sync; nop].
Proof.
  assert (Hn : never_available [Ins sync false; Ins ping false; Ins nop false])
    by (by repeat constructor).
  split; [exact Hn|].
  rewrite (guacdToWs_unbatched cap reserved _ [] Hn). reflexivity.
Defined.

Lemma guacdToWs_blocked_pending_below_cap_witness :
  status (guacdToWs cap reserved [Ins sync true] []) = Blocked /\
  pending (guacdToWs cap reserved [Ins sync true] []) = sync /\
  (pending (guacdToWs cap reserved [Ins sync true] []) = [] \/
   Len (pending (guacdToWs cap reserved [Ins sync true] [])) < cap).
Proof.
  assert (Hb : status (guacdToWs cap reserved [Ins sync true] []) = Blocked)
    by reflexivity.
  split; [exact Hb|]. split; [reflexivity|].
  exact (guacdToWs_blocked_pending_below_cap cap reserved _ [] Hb).
Defined.

Lemma guacdToWs_bursts_witness :
  Forall (small_burst cap reserved) [[sync; nop]; [nop]] /\
  sent (trace (guacdToWs cap reserved (flat_map burst [[sync; nop]; [nop]])
                 [None; None])) = [sync ++ nop; nop].
Proof.
  assert (Hb : Forall (small_burst cap reserved) [[sync; nop]; [nop]]).
  { repeat constructor; try discriminate; vm_compute; reflexivity. }
  assert (Hw : Forall (fun r : option error => r = None) [None; None])
    by (by repeat constructor).
  split; [exact Hb|].
  rewrite (proj1 (guacdToWs_bursts cap reserved _ _ Hb Hw)). reflexivity.
Defined.

Lemma guacdToWs_saturated_witness :
  always_available [Ins blob5000 true; Ins blob5000 true] /\
  Forall (fun d => cap <= Len d)
    (sent (trace (guacdToWs cap reserved [Ins blob5000 true; Ins blob5000 true] []))).
Proof.
  assert (Ha : always_available [Ins blob5000 true; Ins blob5000 true])
    by (by repeat constructor).
  split; [exact Ha|].
  exact (guacdToWs_saturated cap reserved _ [] Ha).
Defined.

Lemma ServeHTTP_frame_witness :
  AddrLogger 0 <> logger serverA /\
  deref (served_memory
           (ServeHTTP cap reserved serverA (inl browser) request
              (init_memory {[ 0%nat := New Stderr ]})))
        (AddrLogger 0) = Some (New Stderr).
Proof.
  assert (Hne : AddrLogger 0 <> logger serverA) by discriminate.
  split; [exact Hne|].
  rewrite (proj1 (ServeHTTP_frame cap reserved serverA (inl browser) request
                    (init_memory {[ 0%nat := New Stderr ]})) _ Hne).
  apply lookup_singleton_eq.
Defined.

Lemma ServeHTTP_teardown_order_witness :
  exists before after : list event,
    served_trace (ServeHTTP cap reserved serverA (inl browser) request (init_memory ∅)) =
      before ++ EvGo_wsToGuacd ::
      trace (guacdToWs cap reserved (tunnel_reads tunnelA) (ws_writes browser)) ++ after /\
    calls after =
      [EvReleaseReader; EvReleaseWriter; EvOnDisconnectWs 2%nat "$a1";
       EvTunnelClose None; EvWsClose None].
Proof.
  destruct (ServeHTTP_teardown_order cap reserved serverA browser request
              (init_memory ∅) tunnelA eq_refl eq_refl)
    as (before & after & Ht & Hc).
  exists before, after. split; [exact Ht|exact Hc].
Defined.


Lemma SetLogger_reaches_default_servers_witness :
  GetLogger
    (served_memory
       (ServeHTTP cap reserved (NewWebsocketServer (Some (fun _ => inl tunnelA)) None)
          (inl browser) request
          (SetLogger (WithLevel (WithTimestamp (New Stderr)) InfoLevel)
             (init_memory ∅)))) =
    mkLogger Stderr InfoLevel true [("connection_id", "$a1")].
Proof.
  exact (proj1 (proj2 (SetLogger_reaches_default_servers cap reserved
    (fun _ => inl tunnelA) browser request tunnelA
    (WithLevel (WithTimestamp (New Stderr)) InfoLevel) (init_memory ∅) eq_refl))).
Defined.

Lemma wsToGuacd_forwards_all_witness :
  no_read_error [Msg 1 sync; Msg 2 ping; Msg 1 nop] /\
  written (trace (wsToGuacd reserved [Msg 1 sync; Msg 2 ping; Msg 1 nop] [])) =
    [sync; nop] /\
  status (wsToGuacd reserved [Msg 1 sync; Msg 2 ping; Msg 1 nop] []) = Blocked.
Proof.
  assert (Hn : no_read_error [Msg 1 sync; Msg 2 ping; Msg 1 nop])
    by (by repeat constructor).
  split; [exact Hn|].
  destruct (proj2 (wsToGuacd_forwards_all reserved) _ [] Hn ltac:(constructor))
    as [Hw Hs].
  split; [|exact Hs]. rewrite Hw. reflexivity.
Defined.

Lemma guacdToWs_drained_witness :
  no_read_some_error [Ins sync true; Ins ping true] /\
  HasPrefix nop reserved = false /\
  pending (guacdToWs cap reserved ([Ins sync true; Ins ping true] ++ [Ins nop false]) [])
    = [] /\
  concat (delivered (trace (guacdToWs cap reserved
            ([Ins sync true; Ins ping true] ++ [Ins nop false]) []))) = sync ++ nop.
Proof.
  assert (Hn : no_read_some_error [Ins sync true; Ins ping true])
    by (by repeat constructor).
  assert (Hf : HasPrefix nop reserved = false) by reflexivity.
  split; [exact Hn|]. split; [exact Hf|].
  destruct (guacdToWs_drained cap reserved _ nop [] Hn Hf ltac:(constructor))
    as (Hp & _ & Hd).
  split; [exact Hp|]. rewrite Hd. reflexivity.
Defined.

(** [sync] is read while more is said to be available, then a filtered
    instruction: the bytes of [sync] wait in the buffer, and the last answer
    of [Available()] was true. *)
Lemma pumps_filter_and_forward_witness :
  pending (guacdToWs cap reserved [Ins sync true; Ins ping false] []) <> [] /\
  ((status (guacdToWs cap reserved [Ins sync true; Ins ping false] []) = Returned /\
    sent (trace (guacdToWs cap reserved [Ins sync true; Ins ping false] [])) =
      delivered (trace (guacdToWs cap reserved [Ins sync true; Ins ping false] [])) ++
      [pending (guacdToWs cap reserved [Ins sync true; Ins ping false] [])]) \/
   last_available
     (trace (guacdToWs cap reserved [Ins sync true; Ins ping false] [])) = Some true).
Proof.
  assert (Hne : pending (guacdToWs cap reserved [Ins sync true; Ins ping false] [])
                <> []) by discriminate.
  split; [exact Hne|].
  destruct (proj2 (pumps_filter_and_forward cap reserved)
              [Ins sync true; Ins ping false] []) as (_ & _ & _ & Hcause).
  exact (Hcause Hne).
Defined.
